(** * Observable: the publish/subscribe registry of [src/Observable.ts]

    The class [Observable] keeps a private table [__eventListeners] from
    event names to arrays of callbacks and offers [on], [once], [off] and
    [fire].  Callbacks are arbitrary client code: they may call back into
    the registry while [fire] is running, they may throw, and they may not
    terminate.

    Modelling choices.
    - The table is a JS object used as a dictionary.  It is modelled twice.
      Sections [Registry] onwards take the event names to be the string keys
      the table owns (a numeric name is the string of its digits): a [gmap]
      from strings to lists, on which the methods, the callbacks and the
      loop of [fire] are modelled in full.  Module [Js] models the methods
      up to their first call of a callback on the object as JavaScript has
      it: keys are strings and symbols, [for ... in] visits the string keys
      only, and a read of a key the table does not own yields the member of
      [Object.prototype] of that name, if there is one (their names are
      listed in [objectPrototypeNames]; [plainName] says a name is not among
      them).  On plain string names the two agree, which is proved below.
    - A function value is known by its identity.  Client functions are
      numbered; the arrow function that [once] allocates is a value of its
      own kind, numbered by an allocation counter.
    - The body of a client function is a tree of registry calls, so that
      running it is defined by recursion; the recursion between [fire] and
      the bodies it runs is bounded by fuel.
    - Every invocation of a callback is recorded, with its call depth, its
      [this] and its argument. *)

From stdpp Require Import gmap strings list fin_maps.

Set Warnings "-register-all,-clear-no-such-hyp".

(** ** Values, callbacks, call records *)

Abbreviation Name := string.

(** Payloads.  Only truthiness is inspected by the code ([options || {}]). *)
Inductive Value :=
| VUndefined
| VNull
| VBool (b : bool)
| VNum (z : Z)
| VStr (s : string)
| VObj (props : list (string * Z)).

Global Instance Value_eq_dec : EqDecision Value.
Proof. solve_decision. Defined.

Definition truthy (v : Value) : bool :=
  match v with
  | VUndefined | VNull => false
  | VBool b => b
  | VNum z => negb (z =? 0)%Z
  | VStr s => negb (String.eqb s "")
  | VObj _ => true
  end.

(** The object literal [{}]. *)
Definition emptyObject : Value := VObj [].

(** [options || {}] *)
Definition orEmpty (options : Value) : Value :=
  if truthy options then options else emptyObject.

(** A callback stored in the table: a client function, or the arrow function
    [(...args) => { handler(...args); disposer(); }] built by [once]. *)
Inductive Listener :=
| Fn (id : nat)
| OnceWrapper (alloc : nat) (eventName : Name) (handler : nat).

Global Instance Listener_eq_dec : EqDecision Listener.
Proof. solve_decision. Defined.

(** The [this] of an invocation: [listener.call(this, ...)] passes the
    registry's owner, the plain call [handler(...args)] passes none. *)
Inductive Ctx := Owner | NoThis.

Global Instance Ctx_eq_dec : EqDecision Ctx.
Proof. solve_decision. Defined.

(** First argument of [on], [once] and [off]: an event name, or an object
    of name/handler pairs, listed in the order [for ... in] visits them. *)
Inductive Arg0 (H : Type) :=
| EventName (eventName : Name)
| Handlers (pairs : list (Name * H)).
Arguments EventName {H} _.
Arguments Handlers {H} _.

Definition mapArg0 {A B} (f : A → B) (a : Arg0 A) : Arg0 B :=
  match a with
  | EventName n => EventName n
  | Handlers m => Handlers (prod_map id f <$> m)
  end.

(** The functions returned by [on] and [once]. *)
Inductive Disposer :=
| DisposeOff (arg0 : Arg0 Listener) (handler : option Listener)
| DisposeNoop
| DisposeEach (disposers : list Disposer).

Record Event := Called {
  depth : nat;
  callee : Listener;
  this : Ctx;
  argument : Value
}.

Global Instance Event_eq_dec : EqDecision Event.
Proof. solve_decision. Defined.

Inductive Outcome :=
| Normal
| Thrown (e : Value)
| OutOfFuel.

Global Instance Outcome_eq_dec : EqDecision Outcome.
Proof. solve_decision. Defined.

(** ** Array primitives used by the class *)

(** [Array.prototype.indexOf], comparing callbacks by identity. *)
Fixpoint indexOf (handler : Listener) (a : list Listener) : Z :=
  match a with
  | [] => -1
  | x :: rest =>
      if decide (x = handler) then 0
      else let i := indexOf handler rest in
           if (i <? 0)%Z then -1 else (i + 1)%Z
  end.

(** [a.splice(index, 1)] for an index inside the array. *)
Definition splice1 (index : Z) (a : list Listener) : list Listener :=
  take (Z.to_nat index) a ++ drop (S (Z.to_nat index)) a.

Section Registry.
(** Whatever private state the client functions keep. *)
Context {U : Type}.

Record World := mkWorld {
  eventListeners : option (gmap string (list Listener));
  closures : nat;
  store : U
}.

Definition setListeners (t : gmap string (list Listener)) (w : World) : World :=
  mkWorld (Some t) (closures w) (store w).

(** The listeners stored for a name, [[]] when there are none. *)
Definition listenersFor (w : World) (n : Name) : list Listener :=
  default [] (eventListeners w ≫= (.!! n)).

(** *** [_removeEventListener] *)
Definition removeEventListener (eventName : Name) (handler : option Listener)
    (t : gmap string (list Listener)) : gmap string (list Listener) :=
  match t !! eventName with
  | None => t
  | Some eventListener =>
      match handler with
      | Some h =>
          let index := indexOf h eventListener in
          if (index >? -1)%Z then <[eventName := splice1 index eventListener]> t
          else t
      | None => <[eventName := []]> t
      end
  end.

(** *** [off] *)
Definition off (arg0 : option (Arg0 Listener)) (handler : option Listener)
    (w : World) : World :=
  match eventListeners w with
  | None => w
  | Some t =>
      match arg0 with
      | None =>
          setListeners
            (foldl (λ t eventName, removeEventListener eventName None t)
               t (map_to_list t).*1) w
      | Some (Handlers m) =>
          setListeners
            (foldl (λ t p, removeEventListener p.1 (Some p.2) t) t m) w
      | Some (EventName n) => setListeners (removeEventListener n handler t) w
      end
  end.

(** *** [on] *)

(** [if (!this.__eventListeners) this.__eventListeners = {}] *)
Definition ensureTable (w : World) : gmap string (list Listener) :=
  default ∅ (eventListeners w).

(** [if (!t[eventName]) t[eventName] = []; t[eventName].push(handler)] *)
Definition pushListener (eventName : Name) (handler : Listener)
    (t : gmap string (list Listener)) : gmap string (list Listener) :=
  let t' := match t !! eventName with
            | None => <[eventName := []]> t
            | Some _ => t
            end in
  alter (λ a, a ++ [handler]) eventName t'.

(** The branches of [on] for a first argument that is not an object. *)
Definition onName (eventName : Name) (handler : option Listener)
    (w : World) : World * Disposer :=
  let t := ensureTable w in
  match handler with
  | Some h =>
      (setListeners (pushListener eventName h t) w,
       DisposeOff (EventName eventName) (Some h))
  | None => (setListeners t w, DisposeNoop)
  end.

Definition on (arg0 : Arg0 Listener) (handler : option Listener)
    (w : World) : World * Disposer :=
  match arg0 with
  | Handlers m =>
      (foldl (λ w p, (onName p.1 (Some p.2) w).1) (setListeners (ensureTable w) w) m,
       DisposeOff (Handlers m) None)
  | EventName n => onName n handler w
  end.

(** *** [once] *)
Definition onceName (eventName : Name) (handler : option nat)
    (w : World) : World * Disposer :=
  match handler with
  | Some h =>
      let wrapper := OnceWrapper (closures w) eventName h in
      on (EventName eventName) (Some wrapper)
         (mkWorld (eventListeners w) (S (closures w)) (store w))
  | None => (w, DisposeNoop)
  end.

Definition once (arg0 : Arg0 nat) (handler : option nat)
    (w : World) : World * Disposer :=
  match arg0 with
  | Handlers m =>
      let r := foldl (λ acc p,
                        let '(w', d) := onceName p.1 (Some p.2) acc.1 in
                        (w', acc.2 ++ [d]))
                     (w, []) m in
      (r.1, DisposeEach r.2)
  | EventName n => onceName n handler w
  end.

(** *** Running a disposer *)
Fixpoint dispose (d : Disposer) (w : World) : World :=
  match d with
  | DisposeOff arg0 handler => off (Some arg0) handler w
  | DisposeNoop => w
  | DisposeEach ds => foldl (λ w d, dispose d w) w ds
  end.


(** ** Client code *)

(** The body of a client function: registry calls, reads and writes of the
    client's own state, [throw] and [try]/[catch]. *)
Inductive Prog :=
| PRet
| PThrow (e : Value)
| POn (arg0 : Arg0 nat) (handler : option nat) (k : Disposer → Prog)
| POnce (arg0 : Arg0 nat) (handler : option nat) (k : Disposer → Prog)
| POff (arg0 : option (Arg0 nat)) (handler : option nat) (k : Prog)
| PDispose (d : Disposer) (k : Prog)
| PFire (eventName : Name) (options : Value) (k : Prog)
| PGet (k : U → Prog)
| PPut (u : U) (k : Prog)
| PTry (body : Prog) (catch : Value → Prog) (k : Prog).

Definition Result : Type := Outcome * World * list Event.

(** Sequencing: a throw (or exhausted fuel) skips what follows. *)
Definition andThen (r : Result) (k : World → Result) : Result :=
  match r with
  | (Normal, w, evs) => let '(o, w', evs') := k w in (o, w', evs ++ evs')
  | _ => r
  end.

(** [try]/[catch]: a throw is handed to the handler. *)
Definition orCatch (r : Result) (h : Value → World → Result) : Result :=
  match r with
  | (Thrown e, w, evs) => let '(o, w', evs') := h e w in (o, w', evs ++ evs')
  | _ => r
  end.

(** *** [fire], given a way to invoke a callback *)
Section Fire.
Variable invoke : nat → Listener → Ctx → Value → World → Result.

(** The [for] loop over the copy [listenersForEvent]. *)
Fixpoint fireLoop (d : nat) (listenersForEvent : list Listener) (options : Value)
    (w : World) : Result :=
  match listenersForEvent with
  | [] => (Normal, w, [])
  | l :: rest =>
      andThen (invoke d l Owner (orEmpty options) w) (fireLoop d rest options)
  end.

Definition fireWith (d : nat) (eventName : Name) (options : Value) (w : World) : Result :=
  match eventListeners w with
  | None => (Normal, w, [])
  | Some t =>
      match t !! eventName with
      | Some listenersForEvent => fireLoop d listenersForEvent options w
      | None => (Normal, w, [])
      end
  end.

(** Running a body whose registry calls log at depth [d]. *)
Fixpoint runBody (d : nat) (p : Prog) (w : World) : Result :=
  match p with
  | PRet => (Normal, w, [])
  | PThrow e => (Thrown e, w, [])
  | POn a h k =>
      let '(w', disposer) := on (mapArg0 Fn a) (Fn <$> h) w in runBody d (k disposer) w'
  | POnce a h k =>
      let '(w', disposer) := once a h w in runBody d (k disposer) w'
  | POff a h k => runBody d k (off (mapArg0 Fn <$> a) (Fn <$> h) w)
  | PDispose disposer k => runBody d k (dispose disposer w)
  | PFire n v k => andThen (fireWith d n v w) (runBody d k)
  | PGet k => runBody d (k (store w)) w
  | PPut u k => runBody d k (mkWorld (eventListeners w) (closures w) u)
  | PTry body catch k =>
      andThen (orCatch (runBody d body w) (λ e, runBody d (catch e))) (runBody d k)
  end.
End Fire.

(** *** Invoking a callback *)

(** The code of the client functions, by number, [this] and argument. *)
Variable code : nat → Ctx → Value → Prog.

(** Every invocation is recorded ahead of what it does. *)
Definition logged (e : Event) (r : Result) : Result := (r.1.1, r.1.2, e :: r.2).

Fixpoint call (fuel : nat) (d : nat) (l : Listener) (ctx : Ctx) (arg : Value)
    (w : World) : Result :=
  logged (Called d l ctx arg)
    match fuel with
    | 0 => (OutOfFuel, w, [])
    | S fuel' =>
        match l with
        | Fn id => runBody (call fuel') (S d) (code id ctx arg) w
        | OnceWrapper _ eventName handler =>
            andThen (call fuel' (S d) (Fn handler) NoThis arg w)
                    (λ w', (Normal, off (Some (EventName eventName)) (Some l) w', []))
        end
    end.

(** [fire] as called from outside any callback. *)
Definition fire (fuel : nat) (eventName : Name) (options : Value) (w : World) : Result :=
  fireWith (call fuel) 0 eventName options w.

End Registry.

Arguments World : clear implicits.
Arguments Prog : clear implicits.
Arguments Result : clear implicits.

(** ** Vocabulary of the statements *)

(** The table's entry for a name: [None] when the name is not a key. *)
Definition entry {U} (w : World U) (n : Name) : option (list Listener) :=
  eventListeners w ≫= (.!! n).

Definition outcome {U} (r : Result U) : Outcome := r.1.1.
Definition world {U} (r : Result U) : World U := r.1.2.
Definition events {U} (r : Result U) : list Event := r.2.

(** The fresh registry: the field initialiser [{}], nothing allocated. *)
Definition newWorld {U} (u : U) : World U := mkWorld (Some ∅) 0 u.

(** The calls made at one depth: those of depth [d] in the record of a
    [fire] that logs at depth [d] are the calls made by its own loop. *)
Definition direct (d : nat) (evs : list Event) : list Event :=
  filter (λ e, depth e = d) evs.

(** The calls of one callback. *)
Definition callsOf (l : Listener) (evs : list Event) : list Event :=
  filter (λ e, callee e = l) evs.

(** The record of a loop that called the listeners [ls] in turn. *)
Definition loopCalls (d : nat) (options : Value) (ls : list Listener) : list Event :=
  (λ l, Called d l Owner (orEmpty options)) <$> ls.

(** Removal of the first occurrence, the effect of [indexOf] and [splice]. *)
Fixpoint removeFirst (h : Listener) (a : list Listener) : list Listener :=
  match a with
  | [] => []
  | x :: rest => if decide (x = h) then rest else x :: removeFirst h rest
  end.

(** Number of copies of a callback in an array. *)
Definition copies (h : Listener) (a : list Listener) : nat :=
  length (filter (λ x, x = h) a).

(** A run is sound for a world property [I] and an event property [Q] when
    it ends in a world satisfying [I] and records only [Q] events. *)
Definition sound {U} (I : World U → Prop) (Q : nat → Event → Prop)
    (d : nat) (r : Result U) : Prop :=
  I (world r) ∧ Forall (Q d) (events r).

(** Every stored [once] wrapper was allocated before now. *)
Definition wellFormed {U} (w : World U) : Prop :=
  ∀ n a m h, OnceWrapper a m h ∈ listenersFor w n → a < closures w.




(** What the registry's operations may do to the stored wrappers: the
    allocation counter does not decrease, a wrapper allocated before gains no
    copy, and a wrapper that appears was allocated in between. *)
Definition evolves {U} (w w' : World U) : Prop :=
  closures w ≤ closures w'
  ∧ (∀ a m h n, a < closures w →
       copies (OnceWrapper a m h) (listenersFor w' n)
         ≤ copies (OnceWrapper a m h) (listenersFor w n))
  ∧ (∀ a m h n, OnceWrapper a m h ∈ listenersFor w' n →
       OnceWrapper a m h ∈ listenersFor w n ∨ closures w ≤ a < closures w').



(** [on(n, l)] for each [l] in turn. *)
Definition subscribeAll {U} (n : Name) (ls : list Listener) (w : World U) : World U :=
  foldl (λ w l, (on (EventName n) (Some l) w).1) w ls.


(** The keys of the table. *)
Definition keysOf {U} (w : World U) : gset string :=
  match eventListeners w with
  | Some t => dom t
  | None => ∅
  end.

(** Two worlds with the same table and the same allocation counter (the
    clients' own state may differ). *)
Definition sameRegistry {U} (w w' : World U) : Prop :=
  eventListeners w = eventListeners w' ∧ closures w = closures w'.

(** The handlers an object of pairs holds for a name, in order. *)
Definition handlersFor {H} (n : Name) (m : list (Name * H)) : list H :=
  (filter (λ p, p.1 = n) m).*2.

(** Removal of the first occurrence of each of [hs] in turn. *)
Definition removeEach (hs : list Listener) (a : list Listener) : list Listener :=
  foldl (λ a h, removeFirst h a) a hs.

(** The wrappers [once] builds for the pairs of an object, the first one
    being allocated at [c]. *)
Fixpoint wrappersOf (c : nat) (m : list (Name * nat)) : list (Name * Listener) :=
  match m with
  | [] => []
  | p :: rest => (p.1, OnceWrapper c p.1 p.2) :: wrappersOf (S c) rest
  end.



(** The property names of [Object.prototype].  For such a name that is not a
    key of the table, [this.__eventListeners[name]] is the inherited member,
    not [undefined]. *)
Definition objectPrototypeNames : list string :=
  ["constructor"; "__defineGetter__"; "__defineSetter__"; "hasOwnProperty";
   "__lookupGetter__"; "__lookupSetter__"; "isPrototypeOf";
   "propertyIsEnumerable"; "toString"; "valueOf"; "__proto__";
   "toLocaleString"].

(** A name [Object.prototype] does not define: for it the table holds what
    it owns and nothing else. *)
Definition plainName (n : Name) : Prop := n ∉ objectPrototypeNames.

Global Instance plainName_dec (n : Name) : Decision (plainName n).
Proof. unfold plainName. apply _. Defined.

(** ** The table as the JavaScript object it is

    [this.__eventListeners] is created by [{}]: its keys are strings and
    symbols, and a read of a key it does not own goes to [Object.prototype].
    This module models the methods on such a table up to their first
    invocation of a callback: [on], [off], [_removeEventListener] and the
    copy [listenersForEvent] that [fire] takes, with the [TypeError] raised
    when an inherited member is used as an array. *)
Module Js.

(** A property key: a string (a number is the string of its digits) or a
    symbol. *)
Inductive Key :=
| Str (s : string)
| Sym (id : nat).

Global Instance Key_eq_dec : EqDecision Key.
Proof. solve_decision. Defined.

Global Instance Key_countable : Countable Key.
Proof.
  apply (inj_countable' (λ k, match k with Str s => inl s | Sym i => inr i end)
                        (λ x, match x with inl s => Str s | inr i => Sym i end)).
  by intros [].
Defined.

Abbreviation Table := (gmap Key (list Listener)).

(** What [table[key]] evaluates to: an array the table owns, a member of
    [Object.prototype] (truthy, and not an array), or [undefined]. *)
Inductive Read :=
| Listeners (a : list Listener)
| Inherited
| Undefined.

Global Instance Read_eq_dec : EqDecision Read.
Proof. solve_decision. Defined.

Definition get (t : Table) (k : Key) : Read :=
  match t !! k with
  | Some a => Listeners a
  | None =>
      match k with
      | Str s => if decide (s ∈ objectPrototypeNames) then Inherited else Undefined
      | Sym _ => Undefined
      end
  end.

(** [for (const eventName in o)] visits the string keys of [o], given here
    in the order in which the object lists its keys; symbols are skipped. *)
Definition forIn {A} (o : list (Key * A)) : list (string * A) :=
  omap (λ p, match p.1 with Str s => Some (s, p.2) | Sym _ => None end) o.

(** How a method ends: it returns, or it throws a [TypeError] with the table
    as it is then, or it has run [table.__proto__ = []], which the accessor
    of [Object.prototype] turns into a change of the table's prototype (what
    the table inherits afterwards is not modelled). *)
Inductive Res (A : Type) :=
| Returns (a : A)
| TypeError (t : Table)
| PrototypeReplaced.
Arguments Returns {A} _.
Arguments TypeError {A} _.
Arguments PrototypeReplaced {A}.

Definition bind {A B} (r : Res A) (k : A → Res B) : Res B :=
  match r with
  | Returns a => k a
  | TypeError t => TypeError t
  | PrototypeReplaced => PrototypeReplaced
  end.

(** A loop whose body may throw. *)
Fixpoint forEach {A} (body : A → Table → Res Table) (l : list A) (t : Table) : Res Table :=
  match l with
  | [] => Returns t
  | x :: rest => bind (body x t) (forEach body rest)
  end.

(** First argument of [on] and [off]: a key, or a reference to an object of
    handlers, whose properties are read when the method runs. *)
Inductive Arg0 :=
| EventName (eventName : Key)
| Handlers (ref : nat).

(** The properties of the handlers objects, by reference. *)
Definition Heap := nat → list (Key * Listener).

(** [() => this.off(eventName, handler)], [() => this.off(arg0)] and
    [() => false]. *)
Inductive Disposer :=
| DisposeOff (arg0 : Arg0) (handler : option Listener)
| DisposeNoop.

(** *** [_removeEventListener] *)
Definition removeEventListener (eventName : Key) (handler : option Listener)
    (t : Table) : Res Table :=
  match get t eventName with
  | Undefined => Returns t
  | Listeners eventListener =>
      match handler with
      | Some h =>
          let index := indexOf h eventListener in
          Returns (if (index >? -1)%Z then <[eventName := splice1 index eventListener]> t
                   else t)
      | None => Returns (<[eventName := []]> t)
      end
  | Inherited =>
      match handler with
      | Some _ => TypeError t
      | None =>
          if decide (eventName = Str "__proto__") then PrototypeReplaced
          else Returns (<[eventName := []]> t)
      end
  end.

(** *** [off] *)
Definition off (objects : Heap) (arg0 : option Arg0) (handler : option Listener)
    (table : option Table) : Res (option Table) :=
  match table with
  | None => Returns None
  | Some t =>
      bind
        match arg0 with
        | None =>
            forEach (λ p, removeEventListener (Str p.1) None) (forIn (map_to_list t)) t
        | Some (Handlers ref) =>
            forEach (λ p, removeEventListener (Str p.1) (Some p.2)) (forIn (objects ref)) t
        | Some (EventName k) => removeEventListener k handler t
        end
        (λ t', Returns (Some t'))
  end.

(** *** [on] *)

(** The branches of [on] for a first argument that is not an object. *)
Definition onName (eventName : Key) (handler : option Listener) (t : Table) :
    Res (Table * Disposer) :=
  match handler with
  | Some h =>
      match get t eventName with
      | Undefined =>
          Returns (<[eventName := [h]]> t, DisposeOff (EventName eventName) (Some h))
      | Listeners a =>
          Returns (<[eventName := a ++ [h]]> t, DisposeOff (EventName eventName) (Some h))
      | Inherited => TypeError t
      end
  | None => Returns (t, DisposeNoop)
  end.

Definition on (objects : Heap) (arg0 : Arg0) (handler : option Listener)
    (table : option Table) : Res (Table * Disposer) :=
  let t := default ∅ table in
  match arg0 with
  | Handlers ref =>
      bind (forEach (λ p t, bind (onName (Str p.1) (Some p.2) t) (λ r, Returns r.1))
              (forIn (objects ref)) t)
           (λ t', Returns (t', DisposeOff (Handlers ref) None))
  | EventName k => onName k handler t
  end.

(** *** Running a disposer *)
Definition dispose (objects : Heap) (d : Disposer) (table : option Table) :
    Res (option Table) :=
  match d with
  | DisposeOff arg0 handler => off objects (Some arg0) handler table
  | DisposeNoop => Returns table
  end.

(** *** [fire], up to its loop: the copy the loop will run over, [None]
    when [fire] returns without a loop. *)
Definition listenersForEvent (eventName : Key) (table : option Table) :
    Res (option (list Listener)) :=
  match table with
  | None => Returns None
  | Some t =>
      match get t eventName with
      | Undefined => Returns None
      | Listeners a => Returns (Some a)
      | Inherited => TypeError t
      end
  end.

End Js.

(** The string-keyed table of the sections above, as a table of [Js]. *)
Definition asObject (t : gmap string (list Listener)) : Js.Table := kmap Js.Str t.

(** The pairs of an object whose keys are all strings. *)
Definition asPairs (m : list (Name * Listener)) : list (Js.Key * Listener) :=
  prod_map Js.Str id <$> m.

(** ** Client functions used in the examples *)

(** Functions that do nothing, as test spies do. *)
Definition quietCode : nat → Ctx → Value → Prog unit := λ _ _ _, PRet.





(** Function 2 throws; the others do nothing. *)
Definition secondThrowsCode : nat → Ctx → Value → Prog unit :=
  λ id _ _, match id with
            | 2 => PThrow (VStr "boom")
            | _ => PRet
            end.

(** ** The array primitives *)

Lemma indexOf_absent (h : Listener) (a : list Listener) :
  h ∉ a → indexOf h a = (-1)%Z.
Proof.
  induction a as [|x a IH]; simpl; [done|].
  intros Hn. apply not_elem_of_cons in Hn as [Hx Ha].
  destruct (decide (x = h)); [congruence|].
  rewrite (IH Ha). done.
Qed.

Lemma indexOf_present (h : Listener) (a : list Listener) :
  h ∈ a → (0 ≤ indexOf h a)%Z.
Proof.
  induction a as [|x a IH]; simpl.
  - intros Hin. by apply elem_of_nil in Hin.
  - intros Hin. destruct (decide (x = h)); [lia|].
    apply elem_of_cons in Hin as [->|Hin]; [done|].
    specialize (IH Hin). destruct (indexOf h a <? 0)%Z eqn:E; lia.
Qed.

Lemma splice1_indexOf (h : Listener) (a : list Listener) :
  (0 ≤ indexOf h a)%Z → splice1 (indexOf h a) a = removeFirst h a.
Proof.
  unfold splice1. induction a as [|x a IH]; simpl; [lia|].
  destruct (decide (x = h)); [done|].
  destruct (indexOf h a <? 0)%Z eqn:E; [lia|].
  intros _. apply Z.ltb_ge in E. specialize (IH E).
  replace (Z.to_nat (indexOf h a + 1)) with (S (Z.to_nat (indexOf h a))) by lia.
  simpl. by rewrite <- IH.
Qed.

Lemma removeFirst_absent (h : Listener) (a : list Listener) :
  h ∉ a → removeFirst h a = a.
Proof.
  induction a as [|x a IH]; simpl; [done|].
  intros Hn. apply not_elem_of_cons in Hn as [Hx Ha].
  destruct (decide (x = h)); [congruence|]. by rewrite IH.
Qed.

Lemma removeFirst_app (h : Listener) (a b : list Listener) :
  h ∉ a → removeFirst h (a ++ h :: b) = a ++ b.
Proof.
  induction a as [|x a IH]; simpl.
  - intros _. by rewrite decide_True.
  - intros Hn. apply not_elem_of_cons in Hn as [Hx Ha].
    destruct (decide (x = h)); [congruence|]. by rewrite IH.
Qed.

Lemma copies_removeFirst (h x : Listener) (a : list Listener) :
  copies x (removeFirst h a) ≤ copies x a.
Proof.
  unfold copies. induction a as [|y a IH]; simpl; [done|].
  destruct (decide (y = h)) as [->|Hy].
  - rewrite filter_cons. case_decide; simpl; lia.
  - rewrite !filter_cons. case_decide; simpl; lia.
Qed.

Lemma copies_removeFirst_self (h : Listener) (a : list Listener) :
  copies h (removeFirst h a) = pred (copies h a).
Proof.
  unfold copies. induction a as [|y a IH]; simpl; [done|].
  destruct (decide (y = h)) as [->|Hy].
  - rewrite filter_cons. by rewrite decide_True.
  - rewrite !filter_cons. rewrite !decide_False by done. done.
Qed.

Lemma copies_zero (h : Listener) (a : list Listener) : copies h a = 0 ↔ h ∉ a.
Proof.
  unfold copies. induction a as [|y a IH]; simpl.
  - split; [intros _; apply not_elem_of_nil | done].
  - rewrite filter_cons. case_decide as Hy; simpl.
    + subst. split; [lia | intros Hn; exfalso; apply Hn; left].
    + rewrite IH. rewrite not_elem_of_cons. naive_solver.
Qed.

Lemma copies_app (h : Listener) (a b : list Listener) :
  copies h (a ++ b) = copies h a + copies h b.
Proof. unfold copies. by rewrite filter_app, length_app. Qed.

(** ** The table operations, read through lookups *)

Lemma indexOf_found (h : Listener) (a : list Listener) :
  (indexOf h a >? -1)%Z = true ↔ h ∈ a.
Proof.
  split.
  - intros Hi. destruct (decide (h ∈ a)) as [|Hn]; [done|].
    rewrite (indexOf_absent _ _ Hn) in Hi. done.
  - intros Hin. apply indexOf_present in Hin. apply Z.gtb_lt. lia.
Qed.

Lemma lookup_removeEventListener (n n' : Name) (h : option Listener)
    (t : gmap string (list Listener)) :
  removeEventListener n h t !! n' =
    if decide (n = n')
    then (λ a, match h with Some x => removeFirst x a | None => [] end) <$> t !! n'
    else t !! n'.
Proof.
  unfold removeEventListener.
  destruct (t !! n) as [a|] eqn:Hn.
  - destruct h as [x|].
    + destruct (indexOf x a >? -1)%Z eqn:Hi.
      * rewrite lookup_insert. case_decide; [subst n'|done].
        rewrite Hn. simpl. f_equal. apply splice1_indexOf.
        apply Z.gtb_lt in Hi. lia.
      * case_decide; [subst n'|done]. rewrite Hn. simpl. f_equal.
        symmetry. apply removeFirst_absent. intros Hin.
        apply indexOf_found in Hin. congruence.
    + rewrite lookup_insert. case_decide; [subst n'|done]. by rewrite Hn.
  - case_decide; [subst n'|done]. by rewrite Hn.
Qed.

Lemma lookup_pushListener (n n' : Name) (h : Listener)
    (t : gmap string (list Listener)) :
  pushListener n h t !! n' =
    if decide (n = n') then Some (default [] (t !! n') ++ [h]) else t !! n'.
Proof.
  unfold pushListener. rewrite lookup_alter.
  case_decide; [subst n'|].
  - destruct (t !! n) as [a|] eqn:Hn; simpl.
    + by rewrite Hn.
    + by rewrite lookup_insert_eq.
  - destruct (t !! n); [done|]. by rewrite lookup_insert_ne.
Qed.

Lemma lookup_clear_keys (ks : list Name) (n : Name)
    (t : gmap string (list Listener)) :
  foldl (λ t k, removeEventListener k None t) t ks !! n =
    if decide (n ∈ ks) then (λ _, []) <$> t !! n else t !! n.
Proof.
  revert t. induction ks as [|k ks IH]; intros t; simpl.
  - done.
  - rewrite IH, lookup_removeEventListener.
    destruct (decide (n ∈ k :: ks)) as [Hin|Hin];
      destruct (decide (n ∈ ks)) as [Hin'|Hin'];
      destruct (decide (k = n)) as [->|Hk]; try done.
    + by destruct (t !! n).
    + apply elem_of_cons in Hin as [->|Hin]; done.
    + exfalso. apply Hin. by right.
    + exfalso. apply Hin. by right.
    + exfalso. apply Hin. left.
Qed.

Lemma lookup_clear_all (n : Name) (t : gmap string (list Listener)) :
  foldl (λ t k, removeEventListener k None t) t (map_to_list t).*1 !! n =
    (λ _, []) <$> t !! n.
Proof.
  rewrite lookup_clear_keys. case_decide as Hin; [done|].
  destruct (t !! n) as [a|] eqn:Hn; [|done].
  exfalso. apply Hin. apply list_elem_of_fmap. exists (n, a). split; [done|].
  by apply elem_of_map_to_list.
Qed.

Section TableFacts.
Context {U : Type}.
Implicit Types (w : World U) (n : Name) (h : Listener).

Lemma listenersFor_onName n n' h w :
  listenersFor (onName n (Some h) w).1 n' =
    if decide (n = n') then listenersFor w n' ++ [h] else listenersFor w n'.
Proof.
  unfold onName, listenersFor, ensureTable. simpl.
  rewrite lookup_pushListener.
  destruct (eventListeners w) as [t|]; simpl; case_decide; done.
Qed.

Lemma listenersFor_on n n' h w :
  listenersFor (on (EventName n) (Some h) w).1 n' =
    if decide (n = n') then listenersFor w n' ++ [h] else listenersFor w n'.
Proof. apply listenersFor_onName. Qed.

Lemma listenersFor_off_name n n' h w :
  listenersFor (off (Some (EventName n)) (Some h) w) n' =
    if decide (n = n') then removeFirst h (listenersFor w n') else listenersFor w n'.
Proof.
  unfold off, listenersFor.
  destruct (eventListeners w) as [t|] eqn:Ht; simpl.
  - rewrite lookup_removeEventListener. case_decide; [|done].
    by destruct (t !! n').
  - rewrite Ht. simpl. by case_decide.
Qed.

End TableFacts.

(** ** Sequencing *)

Section Sequencing.
Context {U : Type}.
Implicit Types (r : Result U) (w : World U).









Lemma andThen_normal r k :
  outcome r = Normal →
  andThen r k = (outcome (k (world r)), world (k (world r)),
                 events r ++ events (k (world r))).
Proof.
  destruct r as [[o w] evs]. unfold outcome, world, events. simpl.
  intros ->. by destruct (k w) as [[o' w'] evs'].
Qed.

Lemma andThen_abort r k : outcome r ≠ Normal → andThen r k = r.
Proof. destruct r as [[[] w] evs]; simpl; done. Qed.


Lemma andThen_assoc r k1 k2 :
  andThen (andThen r k1) k2 = andThen r (λ w, andThen (k1 w) k2).
Proof.
  destruct r as [[[] w] evs]; simpl; try done.
  destruct (k1 w) as [[[] w1] evs1]; simpl; try done.
  destruct (k2 w1) as [[o2 w2] evs2]. by rewrite app_assoc.
Qed.

Lemma andThen_ext r k k' : (∀ w, k w = k' w) → andThen r k = andThen r k'.
Proof. intros H. destruct r as [[[] w] evs]; simpl; try done. by rewrite H. Qed.


Lemma fireLoop_app invoke d (pre post : list Listener) options w :
  fireLoop invoke d (pre ++ post) options w =
    andThen (fireLoop invoke d pre options w) (fireLoop invoke d post options).
Proof.
  revert w. induction pre as [|l pre IH]; intros w; simpl.
  - by destruct (fireLoop invoke d post options w) as [[o w'] evs].
  - rewrite andThen_assoc. apply andThen_ext. intros w'. apply IH.
Qed.

End Sequencing.

(** ** An invariant rule for running client code

    A property [I] of worlds that every registry operation preserves is
    preserved by every run, whatever the callbacks do; and if the callbacks
    stored in worlds satisfying [I] are all [G], every recorded call
    satisfies [Q]. *)

Section Invariant.
Context {U : Type} (code : nat → Ctx → Value → Prog U).
Variables (I : World U → Prop) (G : Listener → Prop) (Q : nat → Event → Prop).
Hypothesis I_on : ∀ a h w, I w → I (on (mapArg0 Fn a) (Fn <$> h) w).1.
Hypothesis I_once : ∀ a h w, I w → I (once a h w).1.
Hypothesis I_off : ∀ a h w, I w → I (off a h w).
Hypothesis I_store : ∀ w u, I w → I (mkWorld (eventListeners w) (closures w) u).
Hypothesis G_stored : ∀ w n l, I w → l ∈ listenersFor w n → G l.
Hypothesis G_fn : ∀ id, G (Fn id).
Hypothesis Q_call : ∀ d l ctx arg, G l → Q d (Called d l ctx arg).
Hypothesis Q_mono : ∀ d e, Q (S d) e → Q d e.

Lemma dispose_inv (dsp : Disposer) (w : World U) : I w → I (dispose dsp w).
Proof using I_off.
  revert dsp w.
  fix IH 1. intros [a h| |ds] w Hw; simpl.
  - by apply I_off.
  - done.
  - revert w Hw. induction ds as [|x ds IHds]; intros w Hw; simpl; [done|].
    apply IHds. by apply IH.
Qed.

Lemma sound_andThen d (r : Result U) k :
  sound I Q d r → (∀ w, I w → sound I Q d (k w)) → sound I Q d (andThen r k).
Proof.
  intros [Hw He] Hk.
  destruct (decide (outcome r = Normal)) as [Hn|Hn].
  - rewrite (andThen_normal _ _ Hn). destruct (Hk _ Hw) as [Hw' He'].
    split; [done|]. apply Forall_app. done.
  - rewrite (andThen_abort _ _ Hn). done.
Qed.

Lemma sound_orCatch d (r : Result U) h :
  sound I Q d r → (∀ e w, I w → sound I Q d (h e w)) → sound I Q d (orCatch r h).
Proof.
  intros [Hw He] Hk. destruct r as [[[] w] evs]; simpl; try done.
  unfold world, events in *. simpl in *.
  destruct (Hk e w Hw) as [Hw' He'].
  destruct (h e w) as [[o' w'] evs']. split; [done|]. apply Forall_app. done.
Qed.

Section Invoke.
Variable invoke : nat → Listener → Ctx → Value → World U → Result U.
Hypothesis invoke_sound :
  ∀ d l ctx arg w, G l → I w → sound I Q d (invoke d l ctx arg w).

Lemma fireLoop_sound d (ls : list Listener) options w :
  Forall G ls → I w → sound I Q d (fireLoop invoke d ls options w).
Proof using invoke_sound.
  intros Hls. revert w. induction Hls as [|l ls Hl Hls IH]; intros w Hw; simpl.
  - split; [done|]. constructor.
  - apply sound_andThen; [by apply invoke_sound | done].
Qed.

Lemma fireWith_sound d n options w :
  I w → sound I Q d (fireWith invoke d n options w).
Proof using invoke_sound G_stored.
  intros Hw. unfold fireWith.
  destruct (eventListeners w) as [t|] eqn:Ht; [|by split; [|constructor]].
  destruct (t !! n) as [ls|] eqn:Hn; [|by split; [|constructor]].
  apply fireLoop_sound; [|done].
  apply Forall_forall. intros l Hl. apply (G_stored w n); [done|].
  unfold listenersFor. rewrite Ht. simpl. by rewrite Hn.
Qed.

Lemma runBody_sound d (p : Prog U) w :
  I w → sound I Q d (runBody invoke d p w).
Proof using invoke_sound G_stored I_on I_once I_off I_store.
  revert w. induction p as [|e|a h k IH|a h k IH|a h k IH|dsp k IH|n v k IH
                           |k IH|u k IH|body IHb catch IHc k IH];
    intros w Hw; simpl.
  - split; [done|constructor].
  - split; [done|constructor].
  - pose proof (I_on a h w Hw) as H.
    destruct (on (mapArg0 Fn a) (Fn <$> h) w) as [w' dsp]. by apply IH.
  - pose proof (I_once a h w Hw) as H.
    destruct (once a h w) as [w' dsp]. by apply IH.
  - apply IH. by apply I_off.
  - apply IH. by apply dispose_inv.
  - apply sound_andThen; [by apply fireWith_sound | done].
  - by apply IH.
  - apply IH. by apply I_store.
  - apply sound_andThen; [|done].
    apply sound_orCatch; [by apply IHb|]. intros e w' Hw'. by apply IHc.
Qed.

End Invoke.

Lemma sound_deeper d (r : Result U) : sound I Q (S d) r → sound I Q d r.
Proof using Q_mono.
  intros [Hw He]. split; [done|].
  eapply Forall_impl; [exact He|]. intros e. apply Q_mono.
Qed.

Lemma sound_logged d e (r : Result U) :
  Q d e → sound I Q d r → sound I Q d (logged e r).
Proof. intros He [Hw Hr]. split; [done|]. by constructor. Qed.

Lemma call_sound fuel d l ctx arg w :
  G l → I w → sound I Q d (call code fuel d l ctx arg w).
Proof using All.
  revert d l ctx arg w.
  induction fuel as [|fuel IH]; intros d l ctx arg w Hl Hw; simpl;
    (apply sound_logged; [by apply Q_call|]).
  - split; [done|constructor].
  - apply sound_deeper. destruct l as [id|a n h].
    + apply runBody_sound; [|done]. intros. by apply IH.
    + apply sound_andThen; [by apply IH|].
      intros w' Hw'. split; [by apply I_off|constructor].
Qed.

Lemma fire_sound fuel n options w :
  I w → sound I Q 0 (fire code fuel n options w).
Proof using All.
  intros Hw. apply fireWith_sound; [|done]. intros. by apply call_sound.
Qed.

End Invariant.

(** ** The calls a loop makes itself *)

Section Snapshot.
Context {U : Type} (code : nat → Ctx → Value → Prog U).
Implicit Types (w : World U) (ls : list Listener).

Lemma call_deeper fuel d l ctx arg w :
  Forall (λ e, d ≤ depth e) (events (call code fuel d l ctx arg w)).
Proof.
  eapply (call_sound code (λ _, True) (λ _, True) (λ d e, d ≤ depth e));
    try done; intros; simpl in *; lia.
Qed.

Lemma runBody_deeper fuel d (p : Prog U) w :
  Forall (λ e, d ≤ depth e) (events (runBody (call code fuel) d p w)).
Proof.
  eapply (runBody_sound (λ _, True) (λ _, True) (λ d e, d ≤ depth e));
    try done.
  intros d' l ctx arg w' _ _. split; [done|]. apply call_deeper.
Qed.

Lemma direct_deeper d (evs : list Event) :
  Forall (λ e, S d ≤ depth e) evs → direct d evs = [].
Proof.
  unfold direct. induction 1 as [|e evs He Hevs IH]; [done|].
  rewrite filter_cons. rewrite decide_False by lia. done.
Qed.

Lemma call_events fuel d l ctx arg w :
  ∃ rest, events (call code fuel d l ctx arg w) = Called d l ctx arg :: rest
          ∧ Forall (λ e, S d ≤ depth e) rest.
Proof.
  destruct fuel as [|fuel]; simpl.
  - exists []. split; [done|constructor].
  - eexists. split; [reflexivity|].
    destruct l as [id|a n h]; simpl.
    + apply runBody_deeper.
    + destruct (call code fuel (S d) (Fn h) NoThis arg w) as [[o w'] evs] eqn:E.
      pose proof (call_deeper fuel (S d) (Fn h) NoThis arg w) as Hd.
      rewrite E in Hd. unfold events in Hd. simpl in Hd.
      destruct o; simpl; try done. by rewrite app_nil_r.
Qed.

Lemma direct_call fuel d l ctx arg w :
  direct d (events (call code fuel d l ctx arg w)) = [Called d l ctx arg].
Proof.
  destruct (call_events fuel d l ctx arg w) as (rest & -> & Hrest).
  unfold direct. rewrite filter_cons. rewrite decide_True by done.
  f_equal. by apply direct_deeper.
Qed.

Lemma direct_app d (evs evs' : list Event) :
  direct d (evs ++ evs') = direct d evs ++ direct d evs'.
Proof. apply filter_app. Qed.

(** The loop calls a prefix of its copy of the array, in order, each with
    the owner as [this] and [options || {}] as argument; the whole copy when
    it runs to its end. *)
Lemma fireLoop_direct fuel d ls options w :
  ∃ k, k ≤ length ls
       ∧ direct d (events (fireLoop (call code fuel) d ls options w))
           = loopCalls d options (take k ls)
       ∧ (outcome (fireLoop (call code fuel) d ls options w) = Normal →
          k = length ls).
Proof.
  revert w. induction ls as [|l ls IH]; intros w; simpl.
  - exists 0. done.
  - pose proof (direct_call fuel d l Owner (orEmpty options) w) as Hd.
    destruct (decide (outcome (call code fuel d l Owner (orEmpty options) w) = Normal))
      as [Hn|Hn].
    + rewrite (andThen_normal _ _ Hn).
      destruct (IH (world (call code fuel d l Owner (orEmpty options) w)))
        as (k & Hk & Hev & Hout).
      exists (S k). split; [simpl; lia|]. split.
      * unfold events at 1. simpl. rewrite direct_app, Hd, Hev. done.
      * intros Ho. unfold outcome at 1 in Ho. simpl in Ho. by rewrite Hout.
    + rewrite (andThen_abort _ _ Hn). exists 1. split; [simpl; lia|]. split.
      * rewrite Hd. simpl. by destruct ls.
      * intros Ho. done.
Qed.

Lemma fireWith_listenersFor invoke d n options w :
  fireWith invoke d n options w = fireLoop invoke d (listenersFor w n) options w.
Proof.
  unfold fireWith, listenersFor.
  destruct (eventListeners w) as [t|]; simpl; [|done].
  by destruct (t !! n).
Qed.


Lemma fire_direct_prefix fuel n options w :
  ∃ k, direct 0 (events (fire code fuel n options w))
         = loopCalls 0 options (take k (listenersFor w n)).
Proof.
  unfold fire. rewrite fireWith_listenersFor.
  destruct (fireLoop_direct fuel 0 (listenersFor w n) options w)
    as (k & Hk & Hev & Hout).
  by exists k.
Qed.

Lemma callsOf_loopCalls_absent d options l ls :
  l ∉ ls → callsOf l (loopCalls d options ls) = [].
Proof.
  unfold callsOf, loopCalls. induction ls as [|x ls IH]; simpl; [done|].
  intros Hn. apply not_elem_of_cons in Hn as [Hx Hls].
  rewrite filter_cons. simpl. rewrite decide_False by congruence. by apply IH.
Qed.


Lemma loopCalls_app d options ls ls' :
  loopCalls d options (ls ++ ls') = loopCalls d options ls ++ loopCalls d options ls'.
Proof. apply fmap_app. Qed.

End Snapshot.

(** ** Removal that finds nothing *)

Section NoOp.
Context {U : Type}.
Implicit Types (w : World U).

Lemma setListeners_same (t : gmap string (list Listener)) w :
  eventListeners w = Some t → setListeners t w = w.
Proof. destruct w as [t' c u]. simpl. intros ->. done. Qed.

Lemma removeEventListener_absent (n : Name) (h : Listener)
    (t : gmap string (list Listener)) :
  h ∉ default [] (t !! n) → removeEventListener n (Some h) t = t.
Proof.
  unfold removeEventListener. destruct (t !! n) as [a|]; simpl; [|done].
  intros Hn. destruct (indexOf h a >? -1)%Z eqn:Hi; [|done].
  by apply indexOf_found in Hi.
Qed.

Lemma off_name_absent (n : Name) (h : Listener) w :
  h ∉ listenersFor w n → off (Some (EventName n)) (Some h) w = w.
Proof.
  unfold off, listenersFor.
  destruct (eventListeners w) as [t|] eqn:Ht; simpl; [|done].
  intros Hn. rewrite removeEventListener_absent by done.
  by apply setListeners_same.
Qed.

End NoOp.

(** ** With spy-like callbacks, [fire] returns *)

Section Returns.
Context {U : Type} (code : nat → Ctx → Value → Prog U).
Implicit Types (w : World U).




End Returns.

(** ** Subscribing, then publishing *)

Section Publish.
Context {U : Type} (code : nat → Ctx → Value → Prog U).
Implicit Types (w : World U) (N : Name) (L : Listener) (P : Value).



End Publish.




(** ** The snapshot *)

Section SnapshotLaws.
Context {U : Type} (code : nat → Ctx → Value → Prog U).
Implicit Types (w : World U) (N : Name) (L : Listener) (P : Value).

Lemma direct_in_snapshot fuel w N P L :
  L ∉ listenersFor w N →
  callsOf L (direct 0 (events (fire code fuel N P w))) = [].
Proof.
  intros Hn. destruct (fire_direct_prefix code fuel N P w) as [k ->].
  apply callsOf_loopCalls_absent. intros Hin. apply Hn.
  by apply (subseteq_take k).
Qed.


(** C8.  When the listeners before position [i] of the copy returned and
    the one at position [i] throws [e], [fire] ends there: it throws the same
    [e], the world is the one the throwing listener left, and the loop has
    called the listeners up to position [i] and none after it. *)
Theorem fire_listener_throws fuel w N P (pre post : list Listener) L
    wi evs_pre e w' evs_l :
  listenersFor w N = pre ++ L :: post →
  fireLoop (call code fuel) 0 pre P w = (Normal, wi, evs_pre) →
  call code fuel 0 L Owner (orEmpty P) wi = (Thrown e, w', evs_l) →
  fire code fuel N P w = (Thrown e, w', evs_pre ++ evs_l)
  ∧ direct 0 (events (fire code fuel N P w)) = loopCalls 0 P (pre ++ [L]).
Proof.
  intros Hls Hpre Hl.
  assert (fire code fuel N P w = (Thrown e, w', evs_pre ++ evs_l)) as Hfire.
  { unfold fire. rewrite fireWith_listenersFor, Hls, fireLoop_app, Hpre.
    simpl. by rewrite Hl. }
  split; [done|]. rewrite Hfire. unfold events. simpl.
  rewrite direct_app, loopCalls_app.
  pose proof (fireLoop_direct code fuel 0 pre P w) as (k & Hk & Hev & Hout).
  rewrite Hpre in Hev, Hout. unfold events, outcome in *. simpl in *.
  rewrite Hev, Hout by done. rewrite firstn_all. f_equal.
  pose proof (direct_call code fuel 0 L Owner (orEmpty P) wi) as Hd.
  by rewrite Hl in Hd.
Qed.


End SnapshotLaws.


(** Of three listeners the second throws: the third is not called. *)
Lemma fire_listener_throws_witness :
  let w := subscribeAll "tick" [Fn 1; Fn 2; Fn 3] (newWorld tt) in
  let c1 := Called 0 (Fn 1) Owner emptyObject in
  let c2 := Called 0 (Fn 2) Owner emptyObject in
  (listenersFor w "tick" = [Fn 1] ++ Fn 2 :: [Fn 3]
   ∧ fireLoop (call secondThrowsCode 1) 0 [Fn 1] VUndefined w = (Normal, w, [c1])
   ∧ call secondThrowsCode 1 0 (Fn 2) Owner (orEmpty VUndefined) w
       = (Thrown (VStr "boom"), w, [c2]))
  ∧ fire secondThrowsCode 1 "tick" VUndefined w = (Thrown (VStr "boom"), w, [c1] ++ [c2])
  ∧ direct 0 (events (fire secondThrowsCode 1 "tick" VUndefined w))
      = loopCalls 0 VUndefined ([Fn 1] ++ [Fn 2]).
Proof.
  intros w c1 c2.
  assert (listenersFor w "tick" = [Fn 1] ++ Fn 2 :: [Fn 3]) as H1
    by (vm_compute; reflexivity).
  assert (fireLoop (call secondThrowsCode 1) 0 [Fn 1] VUndefined w = (Normal, w, [c1]))
    as H2 by (vm_compute; reflexivity).
  assert (call secondThrowsCode 1 0 (Fn 2) Owner (orEmpty VUndefined) w
          = (Thrown (VStr "boom"), w, [c2])) as H3 by (vm_compute; reflexivity).
  split; [done|].
  exact (fire_listener_throws secondThrowsCode 1 w "tick" VUndefined
           [Fn 1] [Fn 3] (Fn 2) w [c1] (VStr "boom") w [c2] H1 H2 H3).
Defined.


(** ** Disposers *)

Section Disposal.
Context {U : Type} (code : nat → Ctx → Value → Prog U).
Implicit Types (w : World U) (N : Name) (L : Listener) (P : Value).

Lemma on_disposer N L w :
  (on (EventName N) (Some L) w).2 = DisposeOff (EventName N) (Some L).
Proof. done. Qed.

(** C5, as the code has it.  The disposer of [on(N, L)] is [off(N, L)].
    Invoked in a state where [L] is stored at most once under [N], invoking
    it twice leaves the same state as invoking it once, [L] is then no longer
    stored under [N] nor called by the loop of a later [fire(N, ...)]; and
    invoked when [L] is not stored under [N] it changes nothing. *)
Theorem dispose_idempotent fuel w w' N L P :
  copies L (listenersFor w' N) ≤ 1 →
  dispose (on (EventName N) (Some L) w).2
      (dispose (on (EventName N) (Some L) w).2 w')
    = dispose (on (EventName N) (Some L) w).2 w'
  ∧ (L ∉ listenersFor (dispose (on (EventName N) (Some L) w).2 w') N)
  ∧ callsOf L (direct 0 (events
       (fire code fuel N P (dispose (on (EventName N) (Some L) w).2 w')))) = []
  ∧ (L ∉ listenersFor w' N → dispose (on (EventName N) (Some L) w).2 w' = w').
Proof.
  intros Hc. rewrite on_disposer. simpl.
  assert (L ∉ listenersFor (off (Some (EventName N)) (Some L) w') N) as Hgone.
  { rewrite listenersFor_off_name, decide_True by done.
    apply copies_zero. rewrite copies_removeFirst_self. lia. }
  split; [by apply off_name_absent|]. split; [done|].
  split; [by apply direct_in_snapshot|]. apply off_name_absent.
Qed.

End Disposal.

Lemma dispose_idempotent_witness :
  let w := newWorld tt in
  let w' := (on (EventName "tick") (Some (Fn 1)) w).1 in
  let dsp := (on (EventName "tick") (Some (Fn 1)) w).2 in
  copies (Fn 1) (listenersFor w' "tick") ≤ 1
  ∧ dispose dsp (dispose dsp w') = dispose dsp w'
  ∧ (Fn 1 ∉ listenersFor (dispose dsp w') "tick")
  ∧ callsOf (Fn 1) (direct 0 (events
       (fire quietCode 1 "tick" (VNum 2) (dispose dsp w')))) = []
  ∧ dispose dsp (dispose dsp w') = dispose dsp w'.
Proof.
  intros w w' dsp.
  assert (copies (Fn 1) (listenersFor w' "tick") ≤ 1) as H1 by (vm_compute; lia).
  assert (copies (Fn 1) (listenersFor (dispose dsp w') "tick") ≤ 1) as H2
    by (vm_compute; lia).
  assert (Fn 1 ∉ listenersFor (dispose dsp w') "tick") as H3 by compute_done.
  destruct (dispose_idempotent quietCode 1 w w' "tick" (Fn 1) (VNum 2) H1)
    as (Ha & Hb & Hc & _).
  split; [done|]. split; [done|]. split; [done|]. split; [done|].
  exact (proj2 (proj2 (proj2
    (dispose_idempotent quietCode 1 w (dispose dsp w') "tick" (Fn 1) (VNum 2) H2))) H3).
Defined.

(** C5 as written fails when [L] is stored twice: each invocation of the
    disposer removes one copy, so the second invocation changes the state
    again, and after one invocation [L] is still called. *)
Lemma dispose_twice_counterexample :
  let w1 := (on (EventName "tick") (Some (Fn 1)) (newWorld tt)).1 in
  let w2 := (on (EventName "tick") (Some (Fn 1)) w1).1 in
  let dsp := (on (EventName "tick") (Some (Fn 1)) w1).2 in
  listenersFor (dispose dsp w2) "tick" = [Fn 1]
  ∧ listenersFor (dispose dsp (dispose dsp w2)) "tick" = []
  ∧ dispose dsp (dispose dsp w2) ≠ dispose dsp w2
  ∧ callsOf (Fn 1) (direct 0 (events
       (fire quietCode 1 "tick" VUndefined (dispose dsp w2))))
    = [Called 0 (Fn 1) Owner emptyObject].
Proof.
  intros w1 w2 dsp.
  assert (listenersFor (dispose dsp w2) "tick" = [Fn 1]) as H1
    by (vm_compute; reflexivity).
  assert (listenersFor (dispose dsp (dispose dsp w2)) "tick" = []) as H2
    by (vm_compute; reflexivity).
  split; [done|]. split; [done|]. split.
  - intros Heq. rewrite Heq in H2. rewrite H1 in H2. discriminate.
  - vm_compute. reflexivity.
Qed.

(** ** How the operations treat stored wrappers *)

Lemma copies_elem_of (x : Listener) (a : list Listener) : 0 < copies x a ↔ x ∈ a.
Proof.
  destruct (decide (x ∈ a)) as [Hin|Hn].
  - split; [done|]. intros _. destruct (copies x a) eqn:E; [|lia].
    by apply copies_zero in E.
  - split; [|done]. apply copies_zero in Hn. lia.
Qed.

Lemma copies_le_elem_of (x : Listener) (a b : list Listener) :
  copies x a ≤ copies x b → x ∈ a → x ∈ b.
Proof. rewrite <- !copies_elem_of. lia. Qed.

Lemma copies_snoc_ne (x y : Listener) (a : list Listener) :
  x ≠ y → copies x (a ++ [y]) = copies x a.
Proof.
  intros Hne. rewrite copies_app. unfold copies at 2. rewrite filter_cons.
  rewrite decide_False by congruence. simpl. lia.
Qed.


Lemma removeEventListener_shrinks (x : Listener) (k n : Name) (h : option Listener)
    (t : gmap string (list Listener)) :
  copies x (default [] (removeEventListener k h t !! n))
    ≤ copies x (default [] (t !! n)).
Proof.
  rewrite lookup_removeEventListener. case_decide; [|done].
  destruct (t !! n) as [a|]; simpl; [|done].
  destruct h as [y|]; [apply copies_removeFirst | unfold copies; simpl; lia].
Qed.

Lemma foldl_shrinks {A} (x : Listener) (n : Name)
    (step : gmap string (list Listener) → A → gmap string (list Listener))
    (xs : list A) (t : gmap string (list Listener)) :
  (∀ t y, copies x (default [] (step t y !! n)) ≤ copies x (default [] (t !! n))) →
  copies x (default [] (foldl step t xs !! n)) ≤ copies x (default [] (t !! n)).
Proof.
  intros Hstep. revert t. induction xs as [|y xs IH]; intros t; simpl; [done|].
  etrans; [apply IH|apply Hstep].
Qed.

Section Evolution.
Context {U : Type}.
Implicit Types (w : World U) (n : Name).

Lemma evolves_refl w : evolves w w.
Proof. split; [done|]. split; [done|]. intros. by left. Qed.

Lemma evolves_trans w1 w2 w3 : evolves w1 w2 → evolves w2 w3 → evolves w1 w3.
Proof.
  intros (Hc & Hs & Hn) (Hc' & Hs' & Hn'). split; [lia|]. split.
  - intros a m h n Ha. etrans; [apply Hs'; lia|by apply Hs].
  - intros a m h n Hin. destruct (Hn' a m h n Hin) as [Hin'|Hr]; [|right; lia].
    destruct (Hn a m h n Hin') as [Hin''|Hr]; [by left|right; lia].
Qed.

Lemma off_shrinks (x : Listener) a h w n :
  copies x (listenersFor (off a h w) n) ≤ copies x (listenersFor w n).
Proof.
  unfold off, listenersFor.
  destruct (eventListeners w) as [t|] eqn:Ht; simpl; [|by rewrite Ht].
  destruct a as [[k|m]|]; simpl.
  - apply removeEventListener_shrinks.
  - apply foldl_shrinks. intros. apply removeEventListener_shrinks.
  - apply foldl_shrinks. intros. apply removeEventListener_shrinks.
Qed.

Lemma closures_off a h w : closures (off a h w) = closures w.
Proof.
  unfold off. destruct (eventListeners w) as [t|]; [|done].
  by destruct a as [[k|m]|].
Qed.

Lemma evolves_off a h w : evolves w (off a h w).
Proof.
  split; [by rewrite closures_off|]. split.
  - intros. apply off_shrinks.
  - intros a' m h' n Hin. left. eapply copies_le_elem_of; [apply off_shrinks|done].
Qed.

Lemma evolves_store w u : evolves w (mkWorld (eventListeners w) (closures w) u).
Proof. split; [done|]. split; [done|]. intros. by left. Qed.

Lemma listenersFor_onName_none n n' w :
  listenersFor (onName n None w).1 n' = listenersFor w n'.
Proof.
  unfold onName, listenersFor, ensureTable. simpl.
  by destruct (eventListeners w).
Qed.

Lemma evolves_onName_fn n (h : option nat) w : evolves w (onName n (Fn <$> h) w).1.
Proof.
  destruct h as [i|];
    [change (evolves w (onName n (Some (Fn i)) w).1)
    |change (evolves w (onName n None w).1)].
  - split; [done|]. split.
    + intros a m h n' Ha. rewrite listenersFor_onName.
      case_decide; [|done]. by rewrite copies_snoc_ne.
    + intros a m h n' Hin. left. rewrite listenersFor_onName in Hin.
      case_decide; [|done]. apply elem_of_app in Hin as [Hin|Hin]; [done|].
      apply list_elem_of_singleton in Hin. done.
  - split; [done|]. split.
    + intros a m h n' Ha. by rewrite listenersFor_onName_none.
    + intros a m h n' Hin. left. by rewrite listenersFor_onName_none in Hin.
Qed.

Lemma evolves_ensure w : evolves w (setListeners (ensureTable w) w).
Proof. apply (evolves_onName_fn "" None w). Qed.

Lemma evolves_on (a : Arg0 nat) (h : option nat) w :
  evolves w (on (mapArg0 Fn a) (Fn <$> h) w).1.
Proof.
  destruct a as [n|m]; simpl; [apply evolves_onName_fn|].
  eapply evolves_trans; [apply evolves_ensure|].
  generalize (setListeners (ensureTable w) w). clear w.
  induction m as [|[n i] m IH]; intros w; simpl; [apply evolves_refl|].
  eapply evolves_trans; [|apply IH].
  apply (evolves_onName_fn n (Some i)).
Qed.

Lemma evolves_onceName n (h : option nat) w : evolves w (onceName n h w).1.
Proof.
  destruct h as [i|]; simpl; [|apply evolves_refl].
  split; [simpl; lia|]. split.
  - intros a m h n' Ha.
    change (copies (OnceWrapper a m h)
              (listenersFor (onName n (Some (OnceWrapper (closures w) n i))
                 (mkWorld (eventListeners w) (S (closures w)) (store w))).1 n')
            ≤ copies (OnceWrapper a m h) (listenersFor w n')).
    rewrite listenersFor_onName. case_decide; [|done].
    rewrite copies_snoc_ne; [done|]. intros [= -> _ _]. lia.
  - intros a m h n' Hin.
    change (OnceWrapper a m h ∈
              listenersFor (onName n (Some (OnceWrapper (closures w) n i))
                 (mkWorld (eventListeners w) (S (closures w)) (store w))).1 n') in Hin.
    rewrite listenersFor_onName in Hin. case_decide; [|by left].
    apply elem_of_app in Hin as [Hin|Hin]; [by left|].
    apply list_elem_of_singleton in Hin. injection Hin as -> _ _.
    right. simpl. lia.
Qed.

Lemma evolves_once_fold (m : list (Name * nat)) (acc : World U * list Disposer) :
  evolves acc.1
    (foldl (λ acc p, let '(w', d) := onceName p.1 (Some p.2) acc.1 in
                     (w', acc.2 ++ [d])) acc m).1.
Proof.
  revert acc. induction m as [|p m IH]; intros acc; [apply evolves_refl|].
  cbn [foldl]. eapply evolves_trans; [|apply IH].
  pose proof (evolves_onceName p.1 (Some p.2) acc.1) as Hstep.
  by destruct (onceName p.1 (Some p.2) acc.1) as [w' d].
Qed.

Lemma evolves_once (a : Arg0 nat) (h : option nat) w : evolves w (once a h w).1.
Proof.
  destruct a as [n|m]; [apply evolves_onceName|].
  apply (evolves_once_fold m (w, [])).
Qed.


Lemma evolves_wellFormed w w' : evolves w w' → wellFormed w → wellFormed w'.
Proof.
  intros (Hc & _ & Hn) Hwf n a m h Hin.
  destruct (Hn a m h n Hin) as [Hin'|Hr]; [|lia].
  specialize (Hwf n a m h Hin'). lia.
Qed.

End Evolution.

(** ** Runs and stored wrappers *)

Section Runs.
Context {U : Type} (code : nat → Ctx → Value → Prog U).
Implicit Types (w : World U) (N n : Name) (P : Value).

Lemma call_evolves fuel d l ctx arg w :
  evolves w (world (call code fuel d l ctx arg w)).
Proof.
  eapply (call_sound code (evolves w) (λ _, True) (λ _ _, True)); try done;
    intros;
    first [ apply evolves_refl
          | eapply evolves_trans; [eassumption|];
            first [apply evolves_on | apply evolves_once
                  | apply evolves_off | apply evolves_store] ].
Qed.

Lemma fireLoop_evolves fuel d (ls : list Listener) options w :
  evolves w (world (fireLoop (call code fuel) d ls options w)).
Proof.
  revert w. induction ls as [|l ls IH]; intros w; simpl; [apply evolves_refl|].
  pose proof (call_evolves fuel d l Owner (orEmpty options) w) as Hl.
  destruct (decide (outcome (call code fuel d l Owner (orEmpty options) w) = Normal))
    as [Hn|Hn].
  - rewrite (andThen_normal _ _ Hn). eapply evolves_trans; [exact Hl|apply IH].
  - by rewrite (andThen_abort _ _ Hn).
Qed.

Lemma fire_evolves fuel n options w :
  evolves w (world (fire code fuel n options w)).
Proof. unfold fire. rewrite fireWith_listenersFor. apply fireLoop_evolves. Qed.

(** Well-formedness is kept by every operation and by every run. *)
Lemma operations_wellFormed w :
  wellFormed w →
  (∀ a h, wellFormed (on (mapArg0 Fn a) (Fn <$> h) w).1)
  ∧ (∀ a h, wellFormed (once a h w).1)
  ∧ (∀ a h, wellFormed (off a h w))
  ∧ (∀ fuel n options, wellFormed (world (fire code fuel n options w))).
Proof.
  intros Hwf. repeat split; intros;
    (eapply evolves_wellFormed; [|exact Hwf]);
    first [apply evolves_on | apply evolves_once | apply evolves_off
          | apply fire_evolves].
Qed.




Lemma once_listeners N (L : nat) w n :
  listenersFor (once (EventName N) (Some L) w).1 n
    = if decide (N = n) then listenersFor w n ++ [OnceWrapper (closures w) N L]
      else listenersFor w n.
Proof.
  unfold once, onceName. cbv zeta. by rewrite listenersFor_on.
Qed.






End Runs.

(** ** [once] *)

Section Once.
Context {U : Type} (code : nat → Ctx → Value → Prog U).
Implicit Types (w : World U) (N n : Name) (P : Value) (L : nat).








End Once.

Lemma wellFormed_new {U} (u : U) : wellFormed (newWorld u).
Proof.
  intros n a m h Hin. unfold listenersFor, newWorld in Hin. simpl in Hin.
  rewrite lookup_empty in Hin. by apply elem_of_nil in Hin.
Qed.




(** ** The two scenarios of the specification *)

(** Register [L] under ["tick"]; [fire("tick", {n: 1})] calls [L] once with
    [{n: 1}]; after the disposer, [fire("tick", {n: 2})] does not call it. *)
Example scenario_tick :
  let '(w1, dsp) := on (EventName "tick") (Some (Fn 1)) (newWorld tt) in
  let r1 := fire quietCode 2 "tick" (VObj [("n", 1%Z)]) w1 in
  let r2 := fire quietCode 2 "tick" (VObj [("n", 2%Z)]) (dispose dsp (world r1)) in
  r1 = (Normal, w1, [Called 0 (Fn 1) Owner (VObj [("n", 1%Z)])])
  ∧ r2 = (Normal, dispose dsp w1, []).
Proof. vm_compute. done. Qed.

(** [once("load", L)], then [fire("load")] twice: [L] is called exactly
    once, with [{}]. *)
Example scenario_load :
  let w1 := (once (EventName "load") (Some 7) (newWorld tt)).1 in
  let r1 := fire quietCode 2 "load" VUndefined w1 in
  let r2 := fire quietCode 2 "load" VUndefined (world r1) in
  outcome r1 = Normal ∧ outcome r2 = Normal
  ∧ callsOf (Fn 7) (events r1 ++ events r2) = [Called 1 (Fn 7) NoThis emptyObject].
Proof. vm_compute. done. Qed.

(** ** Further properties of the operations *)

Lemma removeEach_nil (hs : list Listener) : removeEach hs [] = [].
Proof. unfold removeEach. by induction hs. Qed.

Lemma removeEach_added (hs ls : list Listener) :
  (∀ x, x ∈ hs → x ∉ ls) → removeEach hs (ls ++ hs) = ls.
Proof.
  unfold removeEach. induction hs as [|x hs IH]; intros Hd; simpl.
  - apply app_nil_r.
  - rewrite removeFirst_app by (apply Hd; left).
    apply IH. intros y Hy. apply Hd. by right.
Qed.




Lemma handlersFor_cons {H} (n k : Name) (x : H) (m : list (Name * H)) :
  handlersFor n ((k, x) :: m)
    = if decide (k = n) then x :: handlersFor n m else handlersFor n m.
Proof. unfold handlersFor. rewrite filter_cons. simpl. by case_decide. Qed.

Lemma handlersFor_absent {H} (n : Name) (m : list (Name * H)) :
  n ∉ m.*1 → handlersFor n m = [].
Proof.
  induction m as [|[k x] m IH]; [done|]. rewrite fmap_cons. simpl.
  intros Hn. apply not_elem_of_cons in Hn as [Hk Hm].
  rewrite handlersFor_cons, decide_False by done. by apply IH.
Qed.

Lemma handlersFor_unique {H} (n : Name) (h : H) (m : list (Name * H)) :
  NoDup m.*1 → (n, h) ∈ m → handlersFor n m = [h].
Proof.
  induction m as [|[k x] m IH]; intros Hnd Hin.
  - by apply elem_of_nil in Hin.
  - rewrite fmap_cons in Hnd. simpl in Hnd. apply NoDup_cons in Hnd as [Hk Hnd].
    rewrite handlersFor_cons. apply elem_of_cons in Hin as [Heq|Hin].
    + injection Heq as -> ->. rewrite decide_True by done.
      by rewrite handlersFor_absent.
    + rewrite decide_False; [by apply IH|].
      intros ->. apply Hk. apply list_elem_of_fmap. by exists (n, h).
Qed.

Section MoreTableFacts.
Context {U : Type}.
Implicit Types (w : World U) (n N : Name) (L : Listener).

Lemma dispose_off a h w : dispose (DisposeOff a h) w = off (Some a) h w.
Proof. done. Qed.



End MoreTableFacts.

(** ** Keys of the table *)

Lemma dom_removeEventListener (k : Name) (h : option Listener)
    (t : gmap string (list Listener)) :
  dom (removeEventListener k h t) = dom t.
Proof.
  unfold removeEventListener. destruct (t !! k) as [a|] eqn:Hk; [|done].
  assert (dom (<[k := splice1 (indexOf (default (Fn 0) h) a) a]> t) = dom t
          ∧ dom (<[k := []]> t) = dom t) as [H1 H2]
    by (split; apply dom_insert_lookup_L; by rewrite Hk).
  destruct h as [x|]; [|done]. by destruct (indexOf x a >? -1)%Z.
Qed.

Lemma dom_pushListener (n : Name) (h : Listener) (t : gmap string (list Listener)) :
  dom (pushListener n h t) = {[n]} ∪ dom t.
Proof.
  unfold pushListener. rewrite dom_alter_L.
  destruct (t !! n) as [a|] eqn:Hn.
  - apply elem_of_dom_2 in Hn. set_solver.
  - by rewrite dom_insert_L.
Qed.

Lemma foldl_dom {A} (step : gmap string (list Listener) → A → gmap string (list Listener))
    (xs : list A) (t : gmap string (list Listener)) :
  (∀ t y, dom (step t y) = dom t) → dom (foldl step t xs) = dom t.
Proof.
  intros Hstep. revert t. induction xs as [|y xs IH]; intros t; simpl; [done|].
  by rewrite IH, Hstep.
Qed.

Section Keys.
Context {U : Type} (code : nat → Ctx → Value → Prog U).
Implicit Types (w : World U) (n N : Name) (L : Listener) (P : Value).

Lemma keysOf_off a h w : keysOf (off a h w) = keysOf w.
Proof.
  unfold off, keysOf. destruct (eventListeners w) as [t|] eqn:Ht; [|by rewrite Ht].
  destruct a as [[k|m]|]; simpl.
  - apply dom_removeEventListener.
  - apply foldl_dom. intros. apply dom_removeEventListener.
  - apply foldl_dom. intros. apply dom_removeEventListener.
Qed.

Lemma keysOf_dispose (dsp : Disposer) w : keysOf (dispose dsp w) = keysOf w.
Proof.
  revert dsp w. fix IH 1. intros [a h| |ds] w; simpl.
  - apply keysOf_off.
  - done.
  - revert w. induction ds as [|x ds IHds]; intros w; simpl; [done|].
    by rewrite IHds, IH.
Qed.

Lemma keysOf_onName n (h : option Listener) w :
  keysOf (onName n h w).1
    = match h with Some _ => {[n]} ∪ keysOf w | None => keysOf w end.
Proof.
  unfold onName, keysOf, ensureTable. destruct h as [x|]; simpl.
  - rewrite dom_pushListener. by destruct (eventListeners w); rewrite ?dom_empty_L.
  - by destruct (eventListeners w); rewrite ?dom_empty_L.
Qed.

Lemma keysOf_on_grows (a : Arg0 Listener) (h : option Listener) w :
  keysOf w ⊆ keysOf (on a h w).1.
Proof.
  destruct a as [n|m].
  - change (on (EventName n) h w) with (onName n h w).
    rewrite keysOf_onName. destruct h; set_solver.
  - change (on (Handlers m) h w).1
      with (foldl (λ w p, (onName p.1 (Some p.2) w).1) (onName "" None w).1 m).
    rewrite <- (keysOf_onName "" None w) at 1.
    generalize (onName "" None w).1. clear w.
    induction m as [|[k x] m IH]; intros w; cbn [foldl fst snd]; [done|].
    etrans; [|apply IH]. rewrite keysOf_onName. set_solver.
Qed.

Lemma keysOf_onceName_grows n (h : option nat) w :
  keysOf w ⊆ keysOf (onceName n h w).1.
Proof.
  destruct h as [i|]; [|done]. unfold onceName.
  etrans; [|apply keysOf_on_grows]. done.
Qed.

Lemma keysOf_once_grows (a : Arg0 nat) (h : option nat) w :
  keysOf w ⊆ keysOf (once a h w).1.
Proof.
  destruct a as [n|m]; [apply keysOf_onceName_grows|].
  unfold once. cbn [fst].
  change w with (w, @nil Disposer).1 at 1. generalize (w, @nil Disposer).
  induction m as [|p m IH]; intros acc; cbn [foldl]; [done|].
  etrans; [|apply IH].
  pose proof (keysOf_onceName_grows p.1 (Some p.2) acc.1) as Hstep.
  by destruct (onceName p.1 (Some p.2) acc.1) as [w' d].
Qed.

(** X4.  No operation removes a key from the table: after [off], in each
    of its forms, after a disposer, after [on] and [once], in each of their
    forms, and after a [fire], whatever the callbacks do, every key the
    table had is still a key. *)
Theorem keys_never_removed fuel w a h (dsp : Disposer) a1 h1 a2 h2 n P :
  keysOf w ⊆ keysOf (off a h w)
  ∧ keysOf w ⊆ keysOf (dispose dsp w)
  ∧ keysOf w ⊆ keysOf (on a1 h1 w).1
  ∧ keysOf w ⊆ keysOf (once a2 h2 w).1
  ∧ keysOf w ⊆ keysOf (world (fire code fuel n P w)).
Proof.
  split; [by rewrite keysOf_off|]. split; [by rewrite keysOf_dispose|].
  split; [apply keysOf_on_grows|]. split; [apply keysOf_once_grows|].
  assert (sound (λ w', keysOf w ⊆ keysOf w') (λ _ _, True) 0
            (fire code fuel n P w)) as [Hk _]; [|done].
  apply (fire_sound code (λ w', keysOf w ⊆ keysOf w') (λ _, True)); try done;
    intros;
    first [ etrans; [eassumption|];
            first [apply keysOf_on_grows | apply keysOf_once_grows]
          | by rewrite keysOf_off ].
Qed.


End Keys.

(** ** More on [once] *)


Lemma wrappersOf_alloc (c : nat) (m : list (Name * nat)) (n : Name) (x : Listener) :
  x ∈ handlersFor n (wrappersOf c m) → ∃ a h, x = OnceWrapper a n h ∧ c ≤ a.
Proof.
  revert c. induction m as [|[k i] m IH]; intros c; simpl.
  - unfold handlersFor. simpl. intros Hin. by apply elem_of_nil in Hin.
  - rewrite handlersFor_cons. case_decide as Hk.
    + subst k. intros Hin. apply elem_of_cons in Hin as [->|Hin]; [by eauto|].
      destruct (IH (S c) Hin) as (a & h & -> & Ha). exists a, h. split; [done|lia].
    + intros Hin. destruct (IH (S c) Hin) as (a & h & -> & Ha).
      exists a, h. split; [done|lia].
Qed.

Section MoreOnce.
Context {U : Type} (code : nat → Ctx → Value → Prog U).
Implicit Types (w : World U) (n N : Name) (P : Value) (L : nat).

Lemma once_fold (m : list (Name * nat)) (acc : World U * list Disposer) :
  let r := foldl (λ acc p, let '(w', d) := onceName p.1 (Some p.2) acc.1 in
                           (w', acc.2 ++ [d])) acc m in
  r.2 = acc.2 ++ ((λ p, DisposeOff (EventName p.1) (Some p.2))
                    <$> wrappersOf (closures acc.1) m)
  ∧ closures r.1 = closures acc.1 + length m
  ∧ ∀ n, listenersFor r.1 n
         = listenersFor acc.1 n ++ handlersFor n (wrappersOf (closures acc.1) m).
Proof.
  revert acc. induction m as [|[k i] m IH]; intros [w ds]; cbn [foldl fst snd].
  - cbn zeta. simpl. rewrite app_nil_r. split; [done|]. split; [lia|].
    intros n. unfold handlersFor. simpl. by rewrite app_nil_r.
  - destruct (onceName k (Some i) w) as [w' d] eqn:E.
    assert (d = DisposeOff (EventName k) (Some (OnceWrapper (closures w) k i))
            ∧ closures w' = S (closures w)
            ∧ ∀ n, listenersFor w' n
                   = if decide (k = n)
                     then listenersFor w n ++ [OnceWrapper (closures w) k i]
                     else listenersFor w n) as (-> & Hc & Hl).
    { pose proof (once_listeners k i w) as Hl.
      change (once (EventName k) (Some i) w) with (onceName k (Some i) w) in Hl.
      rewrite E in Hl. by injection E as <- <-. }
    destruct (IH (w', ds ++ [DisposeOff (EventName k)
                               (Some (OnceWrapper (closures w) k i))]))
      as (Hd & Hc' & Hl').
    cbn [fst snd] in *. cbn zeta. split; [|split].
    + rewrite Hd, Hc. simpl. by rewrite <- app_assoc.
    + rewrite Hc', Hc. simpl. lia.
    + intros n. rewrite Hl', Hl, Hc. simpl wrappersOf.
      rewrite handlersFor_cons. case_decide; [|done]. by rewrite <- app_assoc.
Qed.

Lemma listenersFor_dispose_each (ps : list (Name * Listener)) w n :
  listenersFor (dispose (DisposeEach ((λ p, DisposeOff (EventName p.1) (Some p.2)) <$> ps)) w) n
    = removeEach (handlersFor n ps) (listenersFor w n).
Proof.
  cbn [dispose]. revert w. induction ps as [|[k x] ps IH]; intros w.
  - done.
  - rewrite fmap_cons. cbn [foldl]. rewrite IH, dispose_off. cbn [fst snd].
    rewrite listenersFor_off_name, handlersFor_cons. by case_decide.
Qed.

(** X8.  [once(handlers)] visits the string keys of the object.  For the
    pairs it visits, when no key is a name of [Object.prototype], it builds
    one wrapper per pair, each with an identity of its own, and appends it
    under the pair's key; the disposer it returns removes exactly those
    wrappers, so that every name has the listeners it had before. *)
Theorem once_handlers_then_dispose (m : list (Name * nat)) h0 w :
  Forall plainName m.*1 →
  wellFormed w →
  closures (once (Handlers m) h0 w).1 = closures w + length m
  ∧ (∀ n, listenersFor (once (Handlers m) h0 w).1 n
          = listenersFor w n ++ handlersFor n (wrappersOf (closures w) m))
  ∧ (∀ n, listenersFor (dispose (once (Handlers m) h0 w).2 (once (Handlers m) h0 w).1) n
          = listenersFor w n).
Proof.
  intros _ Hwf. destruct (once_fold m (w, [])) as (Hd & Hc & Hl).
  cbn [fst snd] in *.
  split; [exact Hc|]. split; [exact Hl|].
  intros n. unfold once at 1. cbn [snd]. rewrite Hd. cbn [app].
  rewrite listenersFor_dispose_each.
  change (once (Handlers m) h0 w).1 with
    (foldl (λ acc p, let '(w', d) := onceName p.1 (Some p.2) acc.1 in
                     (w', acc.2 ++ [d])) (w, []) m).1.
  rewrite Hl. apply removeEach_added.
  intros x Hx Hin. destruct (wrappersOf_alloc _ _ _ _ Hx) as (a & h & -> & Ha).
  specialize (Hwf n a n h Hin). lia.
Qed.





End MoreOnce.

(** ** Callbacks that leave the registry alone *)

Section Inert.
Context {U : Type} (code : nat → Ctx → Value → Prog U).
Implicit Types (w : World U) (n N : Name) (P : Value) (L : nat).


Lemma sameRegistry_refl w : sameRegistry w w.
Proof. done. Qed.







End Inert.

(** ** A registry without a table *)

Section NoTable.
Context {U : Type} (code : nat → Ctx → Value → Prog U).
Implicit Types (w : World U).

Lemma onName_has_table n (h : option Listener) w :
  is_Some (eventListeners (onName n h w).1).
Proof. unfold onName. by destruct h. Qed.

Lemma on_has_table (a : Arg0 Listener) (h : option Listener) w :
  is_Some (eventListeners (on a h w).1).
Proof.
  destruct a as [n|m]; [apply onName_has_table|].
  change (on (Handlers m) h w).1
    with (foldl (λ w p, (onName p.1 (Some p.2) w).1) (onName "" None w).1 m).
  pose proof (onName_has_table "" None w) as Hbase.
  revert Hbase. generalize (onName "" None w).1. clear w.
  induction m as [|p m IH]; intros w Hw; cbn [foldl]; [done|].
  apply IH, onName_has_table.
Qed.

(** X14.  The guards on a missing table: while the registry has no table,
    [off] in each of its forms and every disposer change nothing and [fire]
    returns at once; [on] creates the table, even when it is given no
    handler and subscribes nothing. *)
Theorem no_table fuel w a h (dsp : Disposer) a' h' n P :
  eventListeners w = None →
  off a h w = w
  ∧ dispose dsp w = w
  ∧ fire code fuel n P w = (Normal, w, [])
  ∧ is_Some (eventListeners (on a' h' w).1).
Proof.
  intros Hnone.
  assert (∀ a h, off a h w = w) as Hoff
    by (intros; unfold off; by rewrite Hnone).
  split; [apply Hoff|]. split; [|split; [|apply on_has_table]].
  - clear a h. revert dsp. fix IH 1. intros [a h| |ds]; simpl.
    + apply Hoff.
    + done.
    + induction ds as [|x ds IHds]; simpl; [done|]. by rewrite IH.
  - unfold fire, fireWith. by rewrite Hnone.
Qed.

End NoTable.

(** ** Instances of the further properties *)



Lemma once_handlers_then_dispose_witness :
  let w := subscribeAll "a" [Fn 1] (newWorld tt) in
  let m := [("a", 2); ("b", 3)] in
  (Forall plainName m.*1 ∧ wellFormed w)
  ∧ closures (once (Handlers m) None w).1 = 0 + 2
  ∧ listenersFor (once (Handlers m) None w).1 "a" = [Fn 1] ++ [OnceWrapper 0 "a" 2]
  ∧ listenersFor (once (Handlers m) None w).1 "b" = [] ++ [OnceWrapper 1 "b" 3]
  ∧ listenersFor (dispose (once (Handlers m) None w).2 (once (Handlers m) None w).1) "a"
      = [Fn 1].
Proof.
  intros w m.
  assert (wellFormed w) as H1.
  { apply (evolves_wellFormed (newWorld tt)); [|apply wellFormed_new].
    apply (evolves_on (EventName "a") (Some 1)). }
  assert (Forall plainName m.*1) as H0 by (repeat constructor; compute_done).
  destruct (once_handlers_then_dispose m None w H0 H1) as (Ha & Hb & Hc).
  split; [done|]. split; [exact Ha|]. split; [exact (Hb "a")|].
  split; [exact (Hb "b")|]. exact (Hc "a").
Defined.





Lemma no_table_witness :
  let w := mkWorld None 0 tt in
  eventListeners w = None
  ∧ off (Some (EventName "a")) (Some (Fn 1)) w = w
  ∧ dispose (DisposeEach [DisposeOff (EventName "a") (Some (Fn 1)); DisposeNoop]) w = w
  ∧ fire quietCode 1 "a" VUndefined w = (Normal, w, [])
  ∧ is_Some (eventListeners (on (EventName "a") None w).1).
Proof.
  intros w.
  assert (eventListeners w = None) as H1 by reflexivity.
  split; [done|].
  exact (no_table quietCode 1 w (Some (EventName "a")) (Some (Fn 1))
           (DisposeEach [DisposeOff (EventName "a") (Some (Fn 1)); DisposeNoop])
           (EventName "a") None "a" VUndefined H1).
Defined.

(** * The object model: symbol keys and inherited names *)

Global Instance Str_inj : Inj (=) (=) Js.Str.
Proof. by intros ?? [=]. Qed.

Lemma get_own (t : Js.Table) k a : t !! k = Some a → Js.get t k = Js.Listeners a.
Proof. unfold Js.get. by intros ->. Qed.

Lemma get_inherited (t : Js.Table) N :
  N ∈ objectPrototypeNames → t !! Js.Str N = None →
  Js.get t (Js.Str N) = Js.Inherited.
Proof. unfold Js.get. intros HN ->. by rewrite decide_True. Qed.

Lemma get_plain (t : Js.Table) N :
  plainName N →
  Js.get t (Js.Str N) = from_option Js.Listeners Js.Undefined (t !! Js.Str N).
Proof. unfold Js.get. intros HN. destruct (t !! _); [done|]. by rewrite decide_False. Qed.

Lemma get_sym (t : Js.Table) i :
  Js.get t (Js.Sym i) = from_option Js.Listeners Js.Undefined (t !! Js.Sym i).
Proof. unfold Js.get. by destruct (t !! _). Qed.

Lemma get_not_inherited (t : Js.Table) k :
  Js.get t k ≠ Js.Inherited →
  Js.get t k = from_option Js.Listeners Js.Undefined (t !! k).
Proof.
  unfold Js.get. destruct (t !! k); [done|]. destruct k as [s|i]; [|done].
  by case_decide.
Qed.

(** C9.  A registry that has just been created has the table [{}].  There
    [fire("toString")] does not return: reading [table["toString"]] yields
    the function inherited from [Object.prototype], and [?.concat()] on it
    throws a [TypeError]; so does [off("toString", f)], on [indexOf]. *)
Theorem fire_inherited_name_throws :
  let t : Js.Table := ∅ in
  Js.get t (Js.Str "toString") = Js.Inherited
  ∧ Js.listenersForEvent (Js.Str "toString") (Some t) = Js.TypeError t
  ∧ Js.off (λ _, []) (Some (Js.EventName (Js.Str "toString"))) (Some (Fn 1)) (Some t)
    = Js.TypeError t.
Proof. done. Qed.

(** ** Reads and writes of one key *)

Lemma get_preserved (t t' : Js.Table) k :
  (is_Some (t !! k) → is_Some (t' !! k)) →
  Js.get t k ≠ Js.Inherited → Js.get t' k ≠ Js.Inherited.
Proof.
  unfold Js.get. intros Hk.
  destruct (t' !! k) as [a'|]; [done|].
  destruct (t !! k) as [a|]; [|done].
  destruct Hk as [? [=]]. by eexists.
Qed.

Lemma js_remove (t : Js.Table) k h :
  Js.get t k ≠ Js.Inherited →
  ∃ t', Js.removeEventListener k h t = Js.Returns t'
    ∧ ∀ k', t' !! k'
            = if decide (k = k')
              then (λ a, match h with Some x => removeFirst x a | None => [] end)
                     <$> t !! k'
              else t !! k'.
Proof.
  intros Hg. unfold Js.removeEventListener.
  rewrite (get_not_inherited _ _ Hg).
  destruct (t !! k) as [a|] eqn:Hk; cbn [from_option].
  - destruct h as [x|].
    + cbv zeta. destruct (indexOf x a >? -1)%Z eqn:Hi.
      * eexists. split; [done|]. intros k'.
        rewrite lookup_insert. case_decide; [subst k'|done].
        rewrite Hk. simpl. f_equal. apply splice1_indexOf.
        apply Z.gtb_lt in Hi. lia.
      * eexists. split; [done|]. intros k'.
        case_decide; [subst k'|done]. rewrite Hk. simpl. f_equal.
        symmetry. apply removeFirst_absent. intros Hin.
        apply indexOf_found in Hin. congruence.
    + eexists. split; [done|]. intros k'. rewrite lookup_insert.
      case_decide; [subst k'|done]. by rewrite Hk.
  - exists t. split; [done|]. intros k'. case_decide; [subst k'|done].
    by rewrite Hk.
Qed.

Lemma js_push (t : Js.Table) k h :
  Js.get t k ≠ Js.Inherited →
  ∃ t', Js.onName k (Some h) t
        = Js.Returns (t', Js.DisposeOff (Js.EventName k) (Some h))
    ∧ ∀ k', t' !! k'
            = if decide (k = k') then Some (default [] (t !! k') ++ [h])
              else t !! k'.
Proof.
  intros Hg. unfold Js.onName.
  rewrite (get_not_inherited _ _ Hg). destruct (t !! k) as [a|] eqn:Hk; simpl.
  - eexists. split; [done|]. intros k'. rewrite lookup_insert.
    case_decide; [subst k'|done]. by rewrite Hk.
  - eexists. split; [done|]. intros k'. rewrite lookup_insert.
    case_decide; [subst k'|done]. by rewrite Hk.
Qed.

(** ** The loops over the string keys *)

Lemma elem_of_forIn {A} (o : list (Js.Key * A)) s x :
  (s, x) ∈ Js.forIn o ↔ (Js.Str s, x) ∈ o.
Proof.
  unfold Js.forIn. rewrite list_elem_of_omap. split.
  - intros ([[s'|i] y] & Hin & Heq); simpl in Heq; [|done].
    by injection Heq as -> ->.
  - intros Hin. by exists (Js.Str s, x).
Qed.

Lemma forIn_asPairs (m : list (Name * Listener)) : Js.forIn (asPairs m) = m.
Proof.
  induction m as [|[k x] m IH]; [done|]. simpl. f_equal. exact IH.
Qed.

Lemma js_off_pairs (m : list (string * Listener)) (t : Js.Table) :
  Forall (λ p, Js.get t (Js.Str p.1) ≠ Js.Inherited) m →
  ∃ t', Js.forEach (λ p, Js.removeEventListener (Js.Str p.1) (Some p.2)) m t
        = Js.Returns t'
    ∧ (∀ s, t' !! Js.Str s = removeEach (handlersFor s m) <$> t !! Js.Str s)
    ∧ (∀ i, t' !! Js.Sym i = t !! Js.Sym i).
Proof.
  revert t. induction m as [|[k x] m IH]; intros t Hm.
  - exists t. split; [done|]. split; [|done]. intros s. by destruct (t !! _).
  - apply Forall_cons in Hm as [Hk Hm]. simpl in Hk.
    destruct (js_remove t (Js.Str k) (Some x) Hk) as (t1 & Hr & Hl1).
    destruct (IH t1) as (t' & Hr' & Hs & Hi).
    { eapply Forall_impl; [exact Hm|]. intros p. apply get_preserved.
      rewrite Hl1. case_decide; [|done]. intros [a ->]. by eexists. }
    exists t'. split; [|split].
    + cbn [Js.forEach fst snd]. rewrite Hr. exact Hr'.
    + intros s. rewrite Hs, Hl1, handlersFor_cons.
      destruct (decide (k = s)) as [->|Hne].
      * rewrite decide_True by done. by destruct (t !! _).
      * rewrite decide_False by congruence. done.
    + intros i. by rewrite Hi, Hl1.
Qed.

Lemma js_on_pairs (m : list (string * Listener)) (t : Js.Table) :
  Forall (λ p, Js.get t (Js.Str p.1) ≠ Js.Inherited) m →
  ∃ t', Js.forEach
          (λ p t, Js.bind (Js.onName (Js.Str p.1) (Some p.2) t) (λ r, Js.Returns r.1))
          m t = Js.Returns t'
    ∧ (∀ s, t' !! Js.Str s
            = if decide (s ∈ m.*1) then Some (default [] (t !! Js.Str s) ++ handlersFor s m)
              else t !! Js.Str s)
    ∧ (∀ i, t' !! Js.Sym i = t !! Js.Sym i).
Proof.
  revert t. induction m as [|[k x] m IH]; intros t Hm.
  - exists t. split; [done|]. split; [|done]. intros s.
    rewrite decide_False; [done|]. apply not_elem_of_nil.
  - apply Forall_cons in Hm as [Hk Hm]. simpl in Hk.
    destruct (js_push t (Js.Str k) x Hk) as (t1 & Hr & Hl1).
    destruct (IH t1) as (t' & Hr' & Hs & Hi).
    { eapply Forall_impl; [exact Hm|]. intros p. apply get_preserved.
      rewrite Hl1. case_decide; [by eexists|done]. }
    exists t'. split; [|split].
    + cbn [Js.forEach fst snd]. rewrite Hr. exact Hr'.
    + intros s. rewrite Hs, Hl1, handlersFor_cons, fmap_cons. cbn [fst].
      destruct (decide (k = s)) as [->|Hne].
      * rewrite (decide_True (P := Js.Str s = Js.Str s)) by done.
        rewrite (decide_True (P := s ∈ s :: m.*1)) by left.
        cbn [default from_option id]. case_decide.
        -- f_equal. by rewrite <- app_assoc.
        -- by rewrite handlersFor_absent.
      * rewrite (decide_False (P := Js.Str k = Js.Str s)) by congruence.
        destruct (decide (s ∈ m.*1)) as [Hin|Hin].
        -- rewrite decide_True by (by right). done.
        -- rewrite decide_False; [done|].
           intros [?|?]%elem_of_cons; done.
    + intros i. by rewrite Hi, Hl1.
Qed.

Lemma js_clear_keys {A} (l : list (string * A)) (t : Js.Table) :
  Forall (λ p, Js.get t (Js.Str p.1) ≠ Js.Inherited) l →
  ∃ t', Js.forEach (λ p, Js.removeEventListener (Js.Str p.1) None) l t
        = Js.Returns t'
    ∧ (∀ s, t' !! Js.Str s
            = if decide (s ∈ l.*1) then (λ _, []) <$> t !! Js.Str s
              else t !! Js.Str s)
    ∧ (∀ i, t' !! Js.Sym i = t !! Js.Sym i).
Proof.
  revert t. induction l as [|[k x] l IH]; intros t Hl.
  - exists t. split; [done|]. split; [|done]. intros s.
    rewrite decide_False; [done|]. apply not_elem_of_nil.
  - apply Forall_cons in Hl as [Hk Hl]. simpl in Hk.
    destruct (js_remove t (Js.Str k) None Hk) as (t1 & Hr & Hl1).
    destruct (IH t1) as (t' & Hr' & Hs & Hi).
    { eapply Forall_impl; [exact Hl|]. intros p. apply get_preserved.
      rewrite Hl1. case_decide; [|done]. intros [a ->]. by eexists. }
    exists t'. split; [|split].
    + cbn [Js.forEach fst snd]. rewrite Hr. exact Hr'.
    + intros s. rewrite Hs, Hl1, fmap_cons. cbn [fst].
      destruct (decide (k = s)) as [->|Hne].
      * rewrite (decide_True (P := Js.Str s = Js.Str s)) by done.
        rewrite (decide_True (P := s ∈ s :: l.*1)) by left.
        case_decide; by destruct (t !! _).
      * rewrite (decide_False (P := Js.Str k = Js.Str s)) by congruence.
        destruct (decide (s ∈ l.*1)) as [Hin|Hin].
        -- rewrite decide_True by (by right). done.
        -- rewrite decide_False; [done|].
           intros [?|?]%elem_of_cons; done.
    + intros i. by rewrite Hi, Hl1.
Qed.

Lemma forIn_keys {A} (o : list (Js.Key * A)) s :
  s ∈ (Js.forIn o).*1 ↔ Js.Str s ∈ o.*1.
Proof.
  rewrite !list_elem_of_fmap. split.
  - intros ([s' x] & -> & Hin). apply elem_of_forIn in Hin.
    by exists (Js.Str s', x).
  - intros ([k x] & Hk & Hin). simpl in Hk. subst k.
    exists (s, x). split; [done|]. by apply elem_of_forIn.
Qed.

Lemma NoDup_forIn {A} (o : list (Js.Key * A)) :
  NoDup o.*1 → NoDup (Js.forIn o).*1.
Proof.
  induction o as [|[k x] o IH]; [intros _; apply NoDup_nil_2|].
  rewrite fmap_cons. cbn [fst]. intros [Hk Hnd]%NoDup_cons. destruct k as [s|i]; simpl.
  - apply NoDup_cons. split; [|by apply IH]. by rewrite forIn_keys.
  - by apply IH.
Qed.

Lemma forIn_map_to_list (t : Js.Table) s :
  s ∈ (Js.forIn (map_to_list t)).*1 ↔ is_Some (t !! Js.Str s).
Proof.
  rewrite forIn_keys, list_elem_of_fmap. split.
  - intros ([k a] & -> & Hin). apply elem_of_map_to_list in Hin. by eexists.
  - intros [a Ha]. exists (Js.Str s, a). split; [done|].
    by apply elem_of_map_to_list.
Qed.

Lemma js_off_all (objects : Js.Heap) h (t : Js.Table) :
  ∃ t', Js.off objects None h (Some t) = Js.Returns (Some t')
    ∧ (∀ s, t' !! Js.Str s = (λ _, []) <$> t !! Js.Str s)
    ∧ (∀ i, t' !! Js.Sym i = t !! Js.Sym i).
Proof.
  destruct (js_clear_keys (Js.forIn (map_to_list t)) t) as (t' & Hr & Hs & Hi).
  { apply Forall_forall. intros [s a] Hin. apply elem_of_forIn in Hin.
    apply elem_of_map_to_list in Hin. simpl. by rewrite (get_own _ _ _ Hin). }
  exists t'. split; [|split; [|done]].
  - unfold Js.off. by rewrite Hr.
  - intros s. rewrite Hs. case_decide as Hin; [done|].
    rewrite forIn_map_to_list in Hin. destruct (t !! Js.Str s); [|done].
    exfalso. apply Hin. by eexists.
Qed.

Section ObjectModel.
Variable objects : Js.Heap.
Implicit Types (t : Js.Table) (k : Js.Key) (h : Listener).

(** X15.  A name that [Object.prototype] defines and the table does not own
    reads as the inherited member: [fire], [on] and [off] with a handler
    throw a [TypeError] there and leave the table as it is.  [off] without a
    handler passes the guard and stores the empty array, which makes the
    name a key of the table: from then on [fire] returns and [on] appends. *)
Theorem inherited_names t N h :
  N ∈ objectPrototypeNames → t !! Js.Str N = None →
  let k := Js.Str N in
  Js.listenersForEvent k (Some t) = Js.TypeError t
  ∧ Js.on objects (Js.EventName k) (Some h) (Some t) = Js.TypeError t
  ∧ Js.off objects (Some (Js.EventName k)) (Some h) (Some t) = Js.TypeError t
  ∧ (N ≠ "__proto__" →
     Js.off objects (Some (Js.EventName k)) None (Some t)
       = Js.Returns (Some (<[k := []]> t))
     ∧ Js.listenersForEvent k (Some (<[k := []]> t)) = Js.Returns (Some [])
     ∧ Js.on objects (Js.EventName k) (Some h) (Some (<[k := []]> t))
       = Js.Returns (<[k := [h]]> t, Js.DisposeOff (Js.EventName k) (Some h))).
Proof.
  intros HN Hk k.
  pose proof (get_inherited t N HN Hk) as Hg. fold k in Hg.
  split; [|split; [|split]].
  - unfold Js.listenersForEvent. by rewrite Hg.
  - unfold Js.on, Js.onName. simpl. by rewrite Hg.
  - unfold Js.off, Js.removeEventListener. by rewrite Hg.
  - intros Hp.
    assert (Js.get (<[k := []]> t) k = Js.Listeners []) as Hg'
      by (apply get_own, lookup_insert_eq).
    split; [|split].
    + unfold Js.off, Js.removeEventListener. rewrite Hg.
      rewrite decide_False; [done|]. unfold k. congruence.
    + unfold Js.listenersForEvent. by rewrite Hg'.
    + unfold Js.on, Js.onName. simpl. rewrite Hg'. simpl.
      by rewrite insert_insert_eq.
Qed.

(** X16.  Where the read of the name is not an inherited member, removing
    what is not there is silent: [off(N, L)] with [L] not stored under [N]
    (or [N] not a key), and [off(N)] with [N] not a key, return and leave the
    table as it is; [fire(N)] returns without a loop when [N] is not a key,
    and runs its loop over an empty copy when [N] holds the empty array. *)
Theorem no_op_unless_inherited t k h :
  Js.get t k ≠ Js.Inherited →
  (h ∉ default [] (t !! k) →
   Js.off objects (Some (Js.EventName k)) (Some h) (Some t) = Js.Returns (Some t))
  ∧ (t !! k = None →
     Js.off objects (Some (Js.EventName k)) None (Some t) = Js.Returns (Some t)
     ∧ Js.listenersForEvent k (Some t) = Js.Returns None)
  ∧ (t !! k = Some [] → Js.listenersForEvent k (Some t) = Js.Returns (Some [])).
Proof.
  intros Hg. pose proof (get_not_inherited t k Hg) as Hget.
  split; [|split].
  - intros Hh. destruct (js_remove t k (Some h) Hg) as (t' & Hr & Hl).
    unfold Js.off. rewrite Hr. simpl. do 2 f_equal.
    apply map_eq. intros k'. rewrite Hl. case_decide; [subst k'|done].
    destruct (t !! k) as [a|]; [|done]. simpl in *.
    by rewrite removeFirst_absent.
  - intros Hk. rewrite Hk in Hget. unfold Js.off, Js.removeEventListener,
      Js.listenersForEvent. by rewrite Hget.
  - intros Hk. rewrite Hk in Hget. unfold Js.listenersForEvent. by rewrite Hget.
Qed.

(** X5.  [off(N)], without a handler.  When [N] is a key of the table its
    array is replaced by the empty one; when [N] reads as [undefined] nothing
    changes and [N] does not become a key; when [N] reads as a member
    inherited from [Object.prototype] the guard lets it through and [N]
    becomes a key holding the empty array, except for ["__proto__"], where
    the assignment replaces the table's prototype instead.  No other key is
    touched. *)
Theorem off_name_only t k :
  (∀ a, t !! k = Some a →
     Js.off objects (Some (Js.EventName k)) None (Some t)
       = Js.Returns (Some (<[k := []]> t)))
  ∧ (Js.get t k = Js.Undefined →
     Js.off objects (Some (Js.EventName k)) None (Some t) = Js.Returns (Some t))
  ∧ (Js.get t k = Js.Inherited → k ≠ Js.Str "__proto__" →
     Js.off objects (Some (Js.EventName k)) None (Some t)
       = Js.Returns (Some (<[k := []]> t)))
  ∧ (Js.get t k = Js.Inherited → k = Js.Str "__proto__" →
     Js.off objects (Some (Js.EventName k)) None (Some t) = Js.PrototypeReplaced)
  ∧ (∀ k', k' ≠ k → (<[k := []]> t) !! k' = t !! k').
Proof.
  unfold Js.off, Js.removeEventListener.
  split; [|split; [|split; [|split]]].
  - intros a Ha. by rewrite (get_own _ _ _ Ha).
  - by intros ->.
  - intros -> Hk. by rewrite decide_False.
  - intros -> Hk. by rewrite decide_True.
  - intros k' Hk. by rewrite lookup_insert_ne.
Qed.

(** X6.  [off()], without arguments, empties the array of every string key
    and keeps the key; the entries under symbol keys, which [for ... in]
    does not visit, keep their listeners.  Afterwards [fire] on a string
    key runs its loop over an empty copy, [fire] on a symbol key still
    takes the listeners stored there, and a second [off()] changes
    nothing. *)
Theorem off_all_string_keys (h0 : option Listener) t :
  ∃ t', Js.off objects None h0 (Some t) = Js.Returns (Some t')
    ∧ (∀ s, t' !! Js.Str s = (λ _, []) <$> t !! Js.Str s)
    ∧ (∀ i, t' !! Js.Sym i = t !! Js.Sym i)
    ∧ (∀ s, is_Some (t !! Js.Str s) →
         Js.listenersForEvent (Js.Str s) (Some t') = Js.Returns (Some []))
    ∧ (∀ i, Js.listenersForEvent (Js.Sym i) (Some t') = Js.Returns (t !! Js.Sym i))
    ∧ Js.off objects None h0 (Some t') = Js.Returns (Some t').
Proof.
  destruct (js_off_all objects h0 t) as (t' & Hr & Hs & Hi).
  exists t'. split; [done|]. split; [done|]. split; [done|].
  split; [|split].
  - intros s [a Ha]. unfold Js.listenersForEvent.
    rewrite (get_own _ _ []); [done|]. by rewrite Hs, Ha.
  - intros i. unfold Js.listenersForEvent. rewrite get_sym, Hi.
    by destruct (t !! Js.Sym i).
  - destruct (js_off_all objects h0 t') as (t'' & Hr' & Hs' & Hi').
    rewrite Hr'. do 2 f_equal. apply map_eq. intros [s|i].
    + rewrite Hs', Hs. by destruct (t !! Js.Str s).
    + by rewrite Hi'.
Qed.

(** X1.  [off(handlers)] visits the string keys of the object.  When the
    object's keys are distinct and none of them reads as an inherited
    member, the call returns, the first stored copy of each string key's
    handler is gone from that key's array, and nothing else changes: not
    the keys the object does not have, and not the symbol keys, even those
    the object pairs with a handler. *)
Theorem off_handlers ref (h0 : option Listener) t :
  let o := objects ref in
  NoDup o.*1 →
  Forall (λ p, Js.get t (Js.Str p.1) ≠ Js.Inherited) (Js.forIn o) →
  ∃ t', Js.off objects (Some (Js.Handlers ref)) h0 (Some t) = Js.Returns (Some t')
    ∧ (∀ s h, (Js.Str s, h) ∈ o → t' !! Js.Str s = removeFirst h <$> t !! Js.Str s)
    ∧ (∀ s, Js.Str s ∉ o.*1 → t' !! Js.Str s = t !! Js.Str s)
    ∧ (∀ i, t' !! Js.Sym i = t !! Js.Sym i).
Proof.
  intros o Hnd Hp.
  destruct (js_off_pairs (Js.forIn o) t Hp) as (t' & Hr & Hs & Hi).
  exists t'. split; [|split; [|split; [|done]]].
  - unfold Js.off. fold o. by rewrite Hr.
  - intros s h Hin. rewrite Hs, (handlersFor_unique s h).
    + by destruct (t !! _).
    + by apply NoDup_forIn.
    + by apply elem_of_forIn.
  - intros s Hs'. rewrite Hs, handlersFor_absent.
    + by destruct (t !! _).
    + by rewrite forIn_keys.
Qed.

(** X3.  [on(handlers)] visits the string keys of the object: when none of
    them reads as an inherited member, the call returns and has appended,
    under each string key, the handler paired with it; a handler paired
    with a symbol key is not subscribed.  The disposer is
    [() => this.off(handlers)], which reads the object when it runs.  With
    the object as it was, and handlers that were not already stored under
    their keys, the disposer puts every array back as it was.  With the
    pairs deleted from the object in between, it changes nothing and the
    handlers stay subscribed. *)
Theorem on_handlers_then_dispose (later : Js.Heap) ref (h0 : option Listener)
    (table : option Js.Table) :
  let o := objects ref in
  let t := default ∅ table in
  Forall (λ p, Js.get t (Js.Str p.1) ≠ Js.Inherited) (Js.forIn o) →
  ∃ t', Js.on objects (Js.Handlers ref) h0 table
        = Js.Returns (t', Js.DisposeOff (Js.Handlers ref) None)
    ∧ (∀ s, default [] (t' !! Js.Str s)
            = default [] (t !! Js.Str s) ++ handlersFor s (Js.forIn o))
    ∧ (∀ i, t' !! Js.Sym i = t !! Js.Sym i)
    ∧ (Js.forIn (later ref) = Js.forIn o →
       (∀ s h, (Js.Str s, h) ∈ o → h ∉ default [] (t !! Js.Str s)) →
       ∃ t'', Js.dispose later (Js.DisposeOff (Js.Handlers ref) None) (Some t')
              = Js.Returns (Some t'')
         ∧ ∀ k, default [] (t'' !! k) = default [] (t !! k))
    ∧ (Js.forIn (later ref) = [] →
       Js.dispose later (Js.DisposeOff (Js.Handlers ref) None) (Some t')
         = Js.Returns (Some t')).
Proof.
  intros o t Hp.
  destruct (js_on_pairs (Js.forIn o) t Hp) as (t' & Hr & Hs & Hi).
  assert (∀ s, default [] (t' !! Js.Str s)
               = default [] (t !! Js.Str s) ++ handlersFor s (Js.forIn o)) as Hd.
  { intros s. rewrite Hs. case_decide as Hin; [done|].
    by rewrite handlersFor_absent, app_nil_r. }
  exists t'. split; [|split; [done|split; [done|split]]].
  - unfold Js.on. fold o t. by rewrite Hr.
  - intros Hsame Hfresh.
    destruct (js_off_pairs (Js.forIn o) t') as (t'' & Hr'' & Hs'' & Hi'').
    { eapply Forall_impl; [exact Hp|]. intros p. apply get_preserved.
      rewrite Hs. case_decide; [by eexists|done]. }
    exists t''. split.
    + unfold Js.dispose, Js.off. by rewrite Hsame, Hr''.
    + intros [s|i]; [|by rewrite Hi'', Hi].
      transitivity (removeEach (handlersFor s (Js.forIn o)) (default [] (t' !! Js.Str s))).
      { rewrite Hs''. destruct (t' !! Js.Str s); [done|]. simpl.
        by rewrite removeEach_nil. }
      rewrite Hd. apply removeEach_added. intros x Hx. apply (Hfresh s).
      unfold handlersFor in Hx.
      apply list_elem_of_fmap in Hx as ([s' y] & -> & Hin).
      apply list_elem_of_filter in Hin as [Hk Hin]. simpl in *. subst s'.
      by apply elem_of_forIn.
  - intros Hnone. unfold Js.dispose, Js.off. by rewrite Hnone.
Qed.

End ObjectModel.

(** ** Symbol keys *)

(** C4.  A listener subscribed under a symbol survives [off()]: the loop
    [for (const eventName in this.__eventListeners)] does not visit symbol
    keys, so the array under the symbol is not emptied and the next [fire]
    of that name still takes it, while a string name subscribed next to it
    is emptied.  [off(name)] on the same table does empty the array of the
    symbol. *)
Theorem off_all_leaves_symbol_names :
  let objects : Js.Heap := λ _, [] in
  let s := Js.Sym 0 in
  let a := Js.Str "a" in
  let t : Js.Table := {[s := [Fn 1]; a := [Fn 2]]} in
  Js.bind (Js.on objects (Js.EventName s) (Some (Fn 1)) (Some ∅))
    (λ r, Js.bind (Js.on objects (Js.EventName a) (Some (Fn 2)) (Some r.1))
            (λ r', Js.Returns r'.1))
    = Js.Returns t
  ∧ Js.off objects None None (Some t) = Js.Returns (Some {[s := [Fn 1]; a := []]})
  ∧ Js.listenersForEvent s (Some {[s := [Fn 1]; a := []]}) = Js.Returns (Some [Fn 1])
  ∧ Js.listenersForEvent a (Some {[s := [Fn 1]; a := []]}) = Js.Returns (Some [])
  ∧ Js.off objects (Some (Js.EventName s)) None (Some t)
    = Js.Returns (Some {[s := []; a := [Fn 2]]}).
Proof. repeat split; vm_compute; reflexivity. Qed.

(** C7.  A pair under a symbol key is not subscribed by the object form:
    [for (const eventName in arg0)] does not visit it.  For the object
    [{[s]: f, b: g}] the call [on(handlers)] subscribes [g] only; the calls
    [on(s, f); on("b", g)] subscribe both, and a [fire] of [s] then takes
    [f]. *)
Theorem on_object_skips_symbol_keys :
  let s := Js.Sym 0 in
  let b := Js.Str "b" in
  let objects : Js.Heap := λ _, [(s, Fn 1); (b, Fn 2)] in
  Js.on objects (Js.Handlers 0) None (Some ∅)
    = Js.Returns ({[b := [Fn 2]]}, Js.DisposeOff (Js.Handlers 0) None)
  ∧ Js.bind (Js.on objects (Js.EventName s) (Some (Fn 1)) (Some ∅))
      (λ r, Js.bind (Js.on objects (Js.EventName b) (Some (Fn 2)) (Some r.1))
              (λ r', Js.Returns r'.1))
    = Js.Returns {[s := [Fn 1]; b := [Fn 2]]}
  ∧ Js.listenersForEvent s (Some {[b := [Fn 2]]}) = Js.Returns None
  ∧ Js.listenersForEvent s (Some {[s := [Fn 1]; b := [Fn 2]]})
    = Js.Returns (Some [Fn 1]).
Proof. repeat split; vm_compute; reflexivity. Qed.

(** ** String names that are not inherited: the two models agree *)

Lemma asObject_lookup (t : gmap string (list Listener)) N :
  asObject t !! Js.Str N = t !! N.
Proof. apply lookup_kmap, _. Qed.

Lemma asObject_lookup_sym (t : gmap string (list Listener)) i :
  asObject t !! Js.Sym i = None.
Proof. apply lookup_kmap_None; [apply _|]. by intros s. Qed.

Lemma asObject_eq (t : gmap string (list Listener)) (t' : Js.Table) :
  (∀ s, t' !! Js.Str s = t !! s) → (∀ i, t' !! Js.Sym i = None) → t' = asObject t.
Proof.
  intros Hs Hi. apply map_eq. intros [s|i].
  - by rewrite Hs, asObject_lookup.
  - by rewrite Hi, asObject_lookup_sym.
Qed.

Lemma get_asObject (t : gmap string (list Listener)) N :
  plainName N →
  Js.get (asObject t) (Js.Str N) = from_option Js.Listeners Js.Undefined (t !! N).
Proof. intros HN. by rewrite get_plain, asObject_lookup. Qed.

Lemma plain_not_inherited (t : Js.Table) N :
  plainName N → Js.get t (Js.Str N) ≠ Js.Inherited.
Proof. intros HN. rewrite get_plain by done. by destruct (t !! _). Qed.

Lemma removeEventListener_asObject N h (t : gmap string (list Listener)) :
  plainName N →
  Js.removeEventListener (Js.Str N) h (asObject t)
    = Js.Returns (asObject (removeEventListener N h t)).
Proof.
  intros HN.
  destruct (js_remove (asObject t) (Js.Str N) h (plain_not_inherited _ _ HN))
    as (t' & -> & Hl).
  f_equal. apply asObject_eq.
  - intros s. rewrite Hl, lookup_removeEventListener, asObject_lookup.
    destruct (decide (N = s)) as [->|Hne].
    + by rewrite decide_True.
    + rewrite decide_False; [done|]. congruence.
  - intros i. by rewrite Hl, asObject_lookup_sym.
Qed.

Lemma onName_asObject N h (t : gmap string (list Listener)) :
  plainName N →
  Js.onName (Js.Str N) (Some h) (asObject t)
    = Js.Returns (asObject (pushListener N h t),
                  Js.DisposeOff (Js.EventName (Js.Str N)) (Some h)).
Proof.
  intros HN.
  destruct (js_push (asObject t) (Js.Str N) h (plain_not_inherited _ _ HN))
    as (t' & -> & Hl).
  do 2 f_equal. apply asObject_eq.
  - intros s. rewrite Hl, lookup_pushListener, asObject_lookup.
    destruct (decide (N = s)) as [->|Hne].
    + by rewrite decide_True.
    + rewrite decide_False; [done|]. congruence.
  - intros i. by rewrite Hl, asObject_lookup_sym.
Qed.

Lemma off_pairs_asObject (m : list (Name * Listener)) (t : gmap string (list Listener)) :
  Forall plainName m.*1 →
  Js.forEach (λ p, Js.removeEventListener (Js.Str p.1) (Some p.2)) m (asObject t)
    = Js.Returns (asObject (foldl (λ t p, removeEventListener p.1 (Some p.2) t) t m)).
Proof.
  revert t. induction m as [|[k x] m IH]; intros t Hm; [done|].
  rewrite fmap_cons in Hm. apply Forall_cons in Hm as [Hk Hm].
  cbn [Js.forEach foldl fst snd].
  rewrite removeEventListener_asObject by done. by apply IH.
Qed.

Lemma on_pairs_asObject (m : list (Name * Listener)) (t : gmap string (list Listener)) :
  Forall plainName m.*1 →
  Js.forEach
    (λ p t, Js.bind (Js.onName (Js.Str p.1) (Some p.2) t) (λ r, Js.Returns r.1))
    m (asObject t)
    = Js.Returns (asObject (foldl (λ t p, pushListener p.1 p.2 t) t m)).
Proof.
  revert t. induction m as [|[k x] m IH]; intros t Hm; [done|].
  rewrite fmap_cons in Hm. apply Forall_cons in Hm as [Hk Hm].
  cbn [Js.forEach foldl fst snd].
  rewrite onName_asObject by done. by apply IH.
Qed.

Section Agreement.
Context {U : Type}.
Implicit Types (w : World U).

Lemma eventListeners_on_fold (m : list (Name * Listener)) w t :
  eventListeners w = Some t →
  eventListeners (foldl (λ w p, (onName p.1 (Some p.2) w).1) w m)
    = Some (foldl (λ t p, pushListener p.1 p.2 t) t m).
Proof.
  revert w t. induction m as [|[k x] m IH]; intros w t Ht; [done|].
  cbn [foldl fst snd]. apply IH. unfold onName, ensureTable. by rewrite Ht.
Qed.

(** X17.  For a table whose keys are strings, and names that are strings
    [Object.prototype] does not define, the methods never throw: [off] in
    its three forms and [on] in its two forms return, and they leave the
    table that the string-keyed model computes; [fire] takes the array stored
    under the name as its copy, and returns without a loop when the name is
    not a key. *)
Theorem plain_names_agree (objects : Js.Heap) w N (h : option Listener)
    (m : list (Name * Listener)) ref :
  plainName N → Forall plainName m.*1 → objects ref = asPairs m →
  let tableOf (w' : World U) := asObject <$> eventListeners w' in
  Js.off objects (Some (Js.EventName (Js.Str N))) h (tableOf w)
    = Js.Returns (tableOf (off (Some (EventName N)) h w))
  ∧ Js.off objects (Some (Js.Handlers ref)) h (tableOf w)
    = Js.Returns (tableOf (off (Some (Handlers m)) h w))
  ∧ Js.off objects None h (tableOf w) = Js.Returns (tableOf (off None h w))
  ∧ (∃ t' d, Js.on objects (Js.EventName (Js.Str N)) h (tableOf w) = Js.Returns (t', d)
             ∧ tableOf (on (EventName N) h w).1 = Some t')
  ∧ (∃ t', Js.on objects (Js.Handlers ref) h (tableOf w)
           = Js.Returns (t', Js.DisposeOff (Js.Handlers ref) None)
           ∧ tableOf (on (Handlers m) h w).1 = Some t')
  ∧ Js.listenersForEvent (Js.Str N) (tableOf w) = Js.Returns (entry w N)
  ∧ (∀ invoke d options,
       fireWith invoke d N options w
         = from_option (λ ls, fireLoop invoke d ls options w) (Normal, w, [])
             (entry w N)).
Proof.
  intros HN Hm Hobj tableOf. unfold tableOf.
  split; [|split; [|split; [|split; [|split; [|split]]]]].
  - unfold off, Js.off. destruct (eventListeners w) as [t|] eqn:Ht;
      [|cbn [fmap option_fmap option_map]; by rewrite Ht].
    cbn [fmap option_fmap option_map eventListeners setListeners].
    by rewrite removeEventListener_asObject.
  - unfold off, Js.off. destruct (eventListeners w) as [t|] eqn:Ht;
      [|cbn [fmap option_fmap option_map]; by rewrite Ht].
    cbn [fmap option_fmap option_map eventListeners setListeners].
    by rewrite Hobj, forIn_asPairs, off_pairs_asObject.
  - unfold off. destruct (eventListeners w) as [t|] eqn:Ht;
      [|cbn [fmap option_fmap option_map]; by rewrite Ht].
    cbn [fmap option_fmap option_map eventListeners setListeners].
    destruct (js_off_all objects h (asObject t)) as (t' & -> & Hs & Hi).
    do 2 f_equal. apply asObject_eq.
    + intros s. by rewrite Hs, asObject_lookup, lookup_clear_all.
    + intros i. by rewrite Hi, asObject_lookup_sym.
  - unfold on, onName, Js.on.
    assert (default ∅ (asObject <$> eventListeners w) = asObject (ensureTable w))
      as -> by (unfold ensureTable, asObject; destruct (eventListeners w);
                [done|simpl; symmetry; apply kmap_empty]).
    destruct h as [x|].
    + rewrite onName_asObject by done. by do 2 eexists.
    + by do 2 eexists.
  - unfold on, Js.on. cbn [fst].
    assert (default ∅ (asObject <$> eventListeners w) = asObject (ensureTable w))
      as -> by (unfold ensureTable, asObject; destruct (eventListeners w);
                [done|simpl; symmetry; apply kmap_empty]).
    rewrite Hobj, forIn_asPairs, on_pairs_asObject by done.
    eexists. split; [done|].
    by rewrite (eventListeners_on_fold m _ (ensureTable w)).
  - unfold Js.listenersForEvent, entry.
    destruct (eventListeners w) as [t|]; [|done].
    cbn [fmap option_fmap option_map mbind option_bind].
    rewrite get_asObject by done. by destruct (t !! N).
  - intros invoke d options. unfold fireWith, entry.
    destruct (eventListeners w) as [t|]; [|done].
    cbn [mbind option_bind]. by destruct (t !! N).
Qed.

End Agreement.

(** ** Instances on tables with symbol keys and inherited names *)

Lemma inherited_names_witness :
  let t : Js.Table := ∅ in
  let k := Js.Str "toString" in
  ("toString" ∈ objectPrototypeNames ∧ t !! k = None ∧ "toString" ≠ "__proto__")
  ∧ Js.listenersForEvent k (Some t) = Js.TypeError t
  ∧ Js.on (λ _, []) (Js.EventName k) (Some (Fn 1)) (Some t) = Js.TypeError t
  ∧ Js.off (λ _, []) (Some (Js.EventName k)) (Some (Fn 1)) (Some t) = Js.TypeError t
  ∧ Js.off (λ _, []) (Some (Js.EventName k)) None (Some t)
    = Js.Returns (Some (<[k := []]> t))
  ∧ Js.listenersForEvent k (Some (<[k := []]> t)) = Js.Returns (Some []).
Proof.
  intros t k.
  assert ("toString" ∈ objectPrototypeNames) as H1 by compute_done.
  assert (t !! k = None) as H2 by done.
  assert ("toString" ≠ "__proto__") as H3 by discriminate.
  destruct (inherited_names (λ _, []) t "toString" (Fn 1) H1 H2)
    as (Ha & Hb & Hc & Hd).
  destruct (Hd H3) as (Hd1 & Hd2 & _).
  split; [repeat split; assumption|]. split; [exact Ha|]. split; [exact Hb|]. split; [exact Hc|].
  split; [exact Hd1|exact Hd2].
Defined.

Lemma no_op_unless_inherited_witness :
  let t : Js.Table := {[Js.Str "tick" := [Fn 1]; Js.Sym 0 := []]} in
  let k := Js.Str "load" in
  (Js.get t k ≠ Js.Inherited ∧ (Fn 2 ∉ default [] (t !! k)) ∧ t !! k = None)
  ∧ Js.off (λ _, []) (Some (Js.EventName k)) (Some (Fn 2)) (Some t) = Js.Returns (Some t)
  ∧ Js.off (λ _, []) (Some (Js.EventName k)) None (Some t) = Js.Returns (Some t)
  ∧ Js.listenersForEvent k (Some t) = Js.Returns None.
Proof.
  intros t k.
  assert (Js.get t k ≠ Js.Inherited) as H1 by compute_done.
  assert (Fn 2 ∉ default [] (t !! k)) as H2 by compute_done.
  assert (t !! k = None) as H3 by compute_done.
  destruct (no_op_unless_inherited (λ _, []) t k (Fn 2) H1) as (Ha & Hb & _).
  destruct (Hb H3) as [Hb1 Hb2].
  split; [repeat split; assumption|]. split; [exact (Ha H2)|]. split; [exact Hb1|exact Hb2].
Defined.

Lemma off_handlers_witness :
  let objects : Js.Heap := λ _, [(Js.Str "a", Fn 1); (Js.Sym 0, Fn 9); (Js.Str "c", Fn 5)] in
  let t : Js.Table :=
    {[Js.Str "a" := [Fn 1; Fn 3; Fn 1]; Js.Str "b" := [Fn 2]; Js.Sym 0 := [Fn 9]]} in
  (NoDup (objects 0).*1
   ∧ Forall (λ p, Js.get t (Js.Str p.1) ≠ Js.Inherited) (Js.forIn (objects 0)))
  ∧ ∃ t', Js.off objects (Some (Js.Handlers 0)) None (Some t) = Js.Returns (Some t')
      ∧ t' !! Js.Str "a" = Some [Fn 3; Fn 1]
      ∧ t' !! Js.Str "b" = Some [Fn 2]
      ∧ t' !! Js.Sym 0 = Some [Fn 9].
Proof.
  intros objects t.
  assert (NoDup (objects 0).*1) as H1 by compute_done.
  assert (Forall (λ p, Js.get t (Js.Str p.1) ≠ Js.Inherited) (Js.forIn (objects 0)))
    as H2 by compute_done.
  assert ((Js.Str "a", Fn 1) ∈ objects 0) as H3 by compute_done.
  assert (Js.Str "b" ∉ (objects 0).*1) as H4 by compute_done.
  assert (removeFirst (Fn 1) <$> t !! Js.Str "a" = Some [Fn 3; Fn 1]) as E1
    by (vm_compute; reflexivity).
  assert (t !! Js.Str "b" = Some [Fn 2]) as E2 by (vm_compute; reflexivity).
  assert (t !! Js.Sym 0 = Some [Fn 9]) as E3 by (vm_compute; reflexivity).
  destruct (off_handlers objects 0 None t H1 H2) as (t' & Hr & Ha & Hb & Hc).
  split; [repeat split; assumption|]. exists t'. split; [exact Hr|].
  split; [by rewrite (Ha "a" (Fn 1) H3)|].
  split; [by rewrite (Hb "b" H4)|by rewrite (Hc 0)].
Defined.

Lemma on_handlers_then_dispose_witness :
  let objects : Js.Heap := λ _, [(Js.Str "a", Fn 1); (Js.Sym 0, Fn 9)] in
  let emptied : Js.Heap := λ _, [] in
  let table : option Js.Table := Some {[Js.Str "a" := [Fn 3]]} in
  let d := Js.DisposeOff (Js.Handlers 0) None in
  Forall (λ p, Js.get (default ∅ table) (Js.Str p.1) ≠ Js.Inherited)
    (Js.forIn (objects 0))
  ∧ ∃ t', Js.on objects (Js.Handlers 0) None table = Js.Returns (t', d)
      ∧ default [] (t' !! Js.Str "a") = [Fn 3; Fn 1]
      ∧ t' !! Js.Sym 0 = None
      ∧ (∃ t'', Js.dispose objects d (Some t') = Js.Returns (Some t'')
                ∧ default [] (t'' !! Js.Str "a") = [Fn 3])
      ∧ Js.dispose emptied d (Some t') = Js.Returns (Some t').
Proof.
  intros objects emptied table d.
  assert (Forall (λ p, Js.get (default ∅ table) (Js.Str p.1) ≠ Js.Inherited)
            (Js.forIn (objects 0))) as H1 by compute_done.
  assert (∀ s h, (Js.Str s, h) ∈ objects 0 →
                 h ∉ default [] (default ∅ table !! Js.Str s)) as H2.
  { intros s h [Heq|Hin]%elem_of_cons.
    - injection Heq as -> ->. compute_done.
    - apply list_elem_of_singleton in Hin. discriminate. }
  assert (default [] (default ∅ table !! Js.Str "a")
            ++ handlersFor "a" (Js.forIn (objects 0)) = [Fn 3; Fn 1]) as E1
    by (vm_compute; reflexivity).
  assert (default ∅ table !! Js.Sym 0 = None) as E2 by (vm_compute; reflexivity).
  assert (default [] (default ∅ table !! Js.Str "a") = [Fn 3]) as E3
    by (vm_compute; reflexivity).
  destruct (on_handlers_then_dispose objects objects 0 None table H1)
    as (t' & Hr & Ha & Hb & Hc & _).
  destruct (on_handlers_then_dispose objects emptied 0 None table H1)
    as (t2 & Hr2 & _ & _ & _ & He).
  assert (t2 = t') as -> by congruence.
  destruct (Hc eq_refl H2) as (t'' & Hd & Hd').
  split; [repeat split; assumption|]. exists t'. split; [exact Hr|].
  split; [by rewrite (Ha "a")|]. split; [by rewrite (Hb 0)|].
  split; [|exact (He eq_refl)].
  exists t''. split; [exact Hd|by rewrite (Hd' (Js.Str "a"))].
Defined.

Lemma plain_names_agree_witness :
  let w := subscribeAll "tick" [Fn 1] (newWorld tt) in
  let m := [("a", Fn 3); ("tick", Fn 1)] in
  let objects : Js.Heap := λ _, asPairs m in
  let tableOf (w' : World unit) := asObject <$> eventListeners w' in
  (plainName "tick" ∧ Forall plainName m.*1 ∧ objects 0 = asPairs m)
  ∧ Js.off objects (Some (Js.EventName (Js.Str "tick"))) (Some (Fn 1)) (tableOf w)
    = Js.Returns (tableOf (off (Some (EventName "tick")) (Some (Fn 1)) w))
  ∧ Js.off objects (Some (Js.Handlers 0)) (Some (Fn 1)) (tableOf w)
    = Js.Returns (tableOf (off (Some (Handlers m)) (Some (Fn 1)) w))
  ∧ Js.off objects None (Some (Fn 1)) (tableOf w)
    = Js.Returns (tableOf (off None (Some (Fn 1)) w))
  ∧ Js.listenersForEvent (Js.Str "tick") (tableOf w) = Js.Returns (entry w "tick")
  ∧ entry w "tick" = Some [Fn 1].
Proof.
  intros w m objects tableOf.
  assert (plainName "tick") as H1 by compute_done.
  assert (Forall plainName m.*1) as H2 by (repeat constructor; compute_done).
  assert (objects 0 = asPairs m) as H3 by reflexivity.
  assert (entry w "tick" = Some [Fn 1]) as E by (vm_compute; reflexivity).
  destruct (plain_names_agree objects w "tick" (Some (Fn 1)) m 0 H1 H2 H3)
    as (Ha & Hb & Hc & _ & _ & Hd & _).
  split; [repeat split; assumption|]. split; [exact Ha|]. split; [exact Hb|]. split; [exact Hc|].
  split; [exact Hd|exact E].
Defined.
